(** * Clementine's Dropbox provider: [src/internet/dropboxservice.cpp]

    A shallow embedding of [DropboxService] and proofs of the properties
    its specification states.

    The service is a callback-driven adapter: every member function runs to
    completion on the event loop, may change the two credential fields and
    the persistent settings, and leaves behind side effects (network
    requests, closures connected to reply objects, signals, log lines).
    The embedding threads an explicit [World] through a small state monad;
    the closures registered with [NewClosure] are kept in the world and
    dispatched by an event-loop relation.

    Qt and QJson are outside the repository.  Their values are modelled by
    what the service observes of them:
    - a [QVariant] is one of the variants QJson produces;
    - a [QUrl] is the string it was built from plus the components
      overridden by setters;
    - parsing functions of Qt ([QString::toLongLong], the path of a parsed
      URL, the JSON parser itself) and the signing routine of
      [DropboxAuthenticator] are parameters of the development. *)

From stdpp Require Import gmap strings list fin_maps pretty.
From Stdlib Require Import ZArith Lia Ascii.

Local Open Scope string_scope.
Local Open Scope list_scope.

(** ** Qt values *)

(** [QVariant] as produced by [QJson::Parser]: null, booleans, integral
    numbers, other numbers, strings, arrays and objects.  A non-integral
    number is kept as the two observations the conversions make of a
    double: [qRound64] of it and its [QString::number] rendering. *)
#[warnings="-register-all"]
Inductive QVariant : Type :=
  | VInvalid
  | VBool (b : bool)
  | VLongLong (z : Z)
  | VDouble (rounded : Z) (rendered : string)
  | VString (s : string)
  | VList (l : list QVariant)
  | VMap (m : gmap string QVariant).

Abbreviation QVariantMap := (gmap string QVariant).
Abbreviation QVariantList := (list QVariant).

(** [QUrl]: [url_source] is the string given to the constructor (empty for
    [QUrl()]); [setScheme] and [setPath] override the parsed components. *)
Record QUrl : Type := mkQUrl {
  url_source : string;
  url_scheme : option string;
  url_path : option string
}.

Definition QUrl_empty : QUrl := mkQUrl "" None None.
Definition QUrl_fromString (s : string) : QUrl := mkQUrl s None None.
Definition QUrl_setScheme (u : QUrl) (s : string) : QUrl :=
  mkQUrl (url_source u) (Some s) (url_path u).
Definition QUrl_setPath (u : QUrl) (p : string) : QUrl :=
  mkQUrl (url_source u) (url_scheme u) (Some p).

(** ASCII lower-casing, enough for the comparisons in [QVariant::toBool]. *)
Definition ascii_toLower (c : Ascii.ascii) : Ascii.ascii :=
  let n := Ascii.N_of_ascii c in
  if ((65 <=? n)%N && (n <=? 90)%N)%bool then Ascii.ascii_of_N (n + 32) else c.

Fixpoint QString_toLower (s : string) : string :=
  match s with
  | EmptyString => EmptyString
  | String c r => String (ascii_toLower c) (QString_toLower r)
  end.

Definition QString_isEmpty (s : string) : bool :=
  match s with EmptyString => true | _ => false end.

(** 32-bit two's complement truncation, the cast [int(qlonglong)]. *)
Definition wrap32 (z : Z) : Z := ((z + 2^31) mod 2^32 - 2^31)%Z.

(** ** The service's constants *)

Definition kServiceName : string := "Dropbox".
Definition kSettingsGroup : string := "Dropbox".
Definition kServiceId : string := "dropbox".
Definition kMetadataEndpoint : string :=
  "https://api.dropbox.com/1/metadata/dropbox/".
Definition kMediaEndpoint : string :=
  "https://api.dropbox.com/1/media/dropbox/".

(** ** [QVariant] conversions (Qt 4 [qvariant.cpp]) *)

Definition toMap (v : QVariant) : QVariantMap :=
  match v with VMap m => m | _ => ∅ end.

Definition toList (v : QVariant) : QVariantList :=
  match v with VList l => l | _ => [] end.

Definition toBool (v : QVariant) : bool :=
  match v with
  | VBool b => b
  | VLongLong z => negb (z =? 0)%Z
  | VDouble r _ => negb (r =? 0)%Z
  | VString s =>
      let str := QString_toLower s in
      negb (String.eqb str "0" || String.eqb str "false" || QString_isEmpty str)
  | _ => false
  end.

Definition toString (v : QVariant) : string :=
  match v with
  | VBool b => if b then "true" else "false"
  | VLongLong z => pretty z
  | VDouble _ s => s
  | VString s => s
  | _ => ""
  end.

Definition toUrl (v : QVariant) : QUrl :=
  match v with
  | VString s => QUrl_fromString s
  | _ => QUrl_empty
  end.

(** [QMap::value(key)] / const [operator[]]: a default-constructed value
    when the key is absent. *)
Definition QMap_value (m : QVariantMap) (k : string) : QVariant :=
  default VInvalid (m !! k).

(** Non-const [QMap::operator[]]: an absent key is inserted with a
    default-constructed value, so the map itself may change. *)
Definition QMap_index (m : QVariantMap) (k : string) : QVariantMap * QVariant :=
  match m !! k with
  | Some v => (m, v)
  | None => (<[k := VInvalid]> m, VInvalid)
  end.

(** [QFileInfo(path).fileName()]: what follows the last slash. *)
Fixpoint fileName_from (acc : string) (s : string) : string :=
  match s with
  | EmptyString => acc
  | String c r =>
      if Ascii.eqb c "/"%char then fileName_from r r else fileName_from acc r
  end.

Definition QFileInfo_fileName (path : string) : string := fileName_from path path.

(** ** Objects the service hands around *)

Record QNetworkRequest : Type := mkRequest {
  request_url : QUrl;
  request_headers : list (string * string)
}.

(** [QNetworkRequest::setRawHeader]: replaces the header of that name. *)
Definition setRawHeader (r : QNetworkRequest) (name value : string) : QNetworkRequest :=
  mkRequest (request_url r)
    ((name, value) :: filter (λ h, h.1 ≠ name) (request_headers r)).

Inductive Verb : Type :=
  | GET
  | POST (body : string).

(** A [QNetworkReply*]: the operation it answers and [reply_data], the
    bytes readable from it once [finished()] has fired.  Slots and
    [WaitForSignal] only look at a reply after that signal. *)
Record QNetworkReply : Type := mkReply {
  reply_verb : Verb;
  reply_request : QNetworkRequest;
  reply_data : string
}.

(** [TagReaderClient::ReplyType*] of a [ReadCloudFile] call: its arguments
    and the debug rendering of the message it ends up carrying. *)
Record TagReply : Type := mkTagReply {
  tag_url : QUrl;
  tag_filename : string;
  tag_size : Z;
  tag_mime_type : string;
  tag_hint : string;
  tag_message : string
}.

(** What the service reads from a [DropboxAuthenticator*]. *)
Record DropboxAuthenticator : Type := mkAuthenticator {
  access_token : string;
  access_token_secret : string;
  name : string
}.

(** The slots connected by [NewClosure], with the arguments bound to them. *)
Inductive Closure : Type :=
  | Slot_RequestFileListFinished (reply : QNetworkReply)
  | Slot_FetchContentUrlFinished (reply : QNetworkReply) (data : QVariantMap)
  | Slot_ReadTagsFinished (reply : TagReply) (file : QVariantMap).

Inductive QObject : Type :=
  | ObjReply (r : QNetworkReply)
  | ObjAuthenticator (a : DropboxAuthenticator).

Inductive LogArg : Type :=
  | LogString (s : string)
  | LogUrl (u : QUrl)
  | LogInt (z : Z).

(** Observable side effects, in program order. *)
Inductive Event : Type :=
  | EvRegisterUrlHandler
  | EvDeleteLater (o : QObject)
  | EvNetwork (v : Verb) (r : QNetworkRequest)
  | EvWaitForSignal (r : QNetworkReply)
  | EvShowSettingsDialog
  | EvConnected
  | EvReadCloudFile (url : QUrl) (filename : string) (size : Z)
      (mime_type : string) (hint : string)
  | EvLog (args : list LogArg).

(** ** The service and its world *)

(** The data members of [DropboxService] the file assigns. *)
Record DropboxService : Type := mkService {
  access_token_ : string;
  access_token_secret_ : string
}.

Record World : Type := mkWorld {
  this : DropboxService;
  qsettings : gmap string QVariant;   (* the persistent [QSettings] store *)
  closures : list Closure;            (* connected by [NewClosure], not yet fired *)
  trace : list Event
}.

Definition with_this (w : World) (s : DropboxService) : World :=
  mkWorld s (qsettings w) (closures w) (trace w).
Definition with_qsettings (w : World) (q : gmap string QVariant) : World :=
  mkWorld (this w) q (closures w) (trace w).
Definition with_closures (w : World) (c : list Closure) : World :=
  mkWorld (this w) (qsettings w) c (trace w).
Definition with_trace (w : World) (t : list Event) : World :=
  mkWorld (this w) (qsettings w) (closures w) t.

(** State monad over the world. *)
Definition M (A : Type) : Type := World → A * World.

#[global] Instance M_ret : MRet M := λ A a w, (a, w).
#[global] Instance M_bind : MBind M := λ A B f m w, let '(a, w') := m w in f a w'.

Definition exec {A} (m : M A) (w : World) : World := (m w).2.
Definition eval {A} (m : M A) (w : World) : A := (m w).1.

Definition get_this : M DropboxService := λ w, (this w, w).
Definition set_access_token_ (s : string) : M unit :=
  λ w, (tt, with_this w (mkService s (access_token_secret_ (this w)))).
Definition set_access_token_secret_ (s : string) : M unit :=
  λ w, (tt, with_this w (mkService (access_token_ (this w)) s)).
Definition emit (e : Event) : M unit :=
  λ w, (tt, with_trace w (trace w ++ [e])).

(** A [QSettings] object after [beginGroup(group)]. *)
Definition QSettings_key (group key : string) : string := group +:+ "/" +:+ key.
Definition QSettings_value (group key : string) : M QVariant :=
  λ w, (default VInvalid (qsettings w !! QSettings_key group key), w).
Definition QSettings_setValue (group key : string) (v : QVariant) : M unit :=
  λ w, (tt, with_qsettings w (<[QSettings_key group key := v]> (qsettings w))).

(** Modelled from the spec: [NewClosure] of [core/closure.h] is not under
    [src/].  It connects one slot invocation, with its bound arguments, to
    a signal of the sender; the callback then "owns exactly one request
    context".  The connection is recorded until the event loop fires it. *)
Definition NewClosure (c : Closure) : M unit :=
  λ w, (tt, with_closures w (closures w ++ [c])).

Fixpoint foreach {A} (l : list A) (body : A → M unit) : M unit :=
  match l with
  | [] => mret tt
  | x :: r => body x;; foreach r body
  end.

(** ** The member functions *)

(** The collaborators living outside this file, as an interface. *)
Class Collaborators : Type := {
  (** [DropboxAuthenticator::GenerateAuthorisationHeader(token, secret)],
      declared in [internet/dropboxauthenticator.h]. *)
  Authenticator_GenerateAuthorisationHeader : string → string → string;
  (** [QJson::Parser::parse] applied to the bytes of a reply. *)
  QJson_parse : string → QVariant;
  (** [QString::toLongLong] (0 when the text is not a number). *)
  QString_toLongLong : string → Z;
  (** The path component Qt parses out of a URL string. *)
  QUrl_parse_path : string → string;
  (** The remote end: the bytes with which the reply to a request finishes. *)
  network : Verb → QNetworkRequest → string;
  (** The tag reader: the message a [ReadCloudFile] reply ends up with. *)
  tag_reader : QUrl → string → Z → string → string → string
}.

Section DropboxService.

Context `{Collaborators}.

Definition QUrl_path (u : QUrl) : string :=
  match url_path u with
  | Some p => p
  | None => QUrl_parse_path (url_source u)
  end.

Definition toInt (v : QVariant) : Z :=
  wrap32 match v with
         | VBool b => if b then 1 else 0
         | VLongLong z => z
         | VDouble r _ => r
         | VString s => QString_toLongLong s
         | _ => 0
         end%Z.

(** [network_->get(request)] and [network_->post(request, data)]. *)
Definition network_get (request : QNetworkRequest) : M QNetworkReply :=
  emit (EvNetwork GET request);;
  mret (mkReply GET request (network GET request)).

Definition network_post (request : QNetworkRequest) (data : string) : M QNetworkReply :=
  emit (EvNetwork (POST data) request);;
  mret (mkReply (POST data) request (network (POST data) request)).

(** [app_->tag_reader_client()->ReadCloudFile(...)]. *)
Definition ReadCloudFile (url : QUrl) (filename : string) (size : Z)
    (mime_type hint : string) : M TagReply :=
  emit (EvReadCloudFile url filename size mime_type hint);;
  mret (mkTagReply url filename size mime_type hint
          (tag_reader url filename size mime_type hint)).

(** Modelled from the spec: [WaitForSignal] of [core/waitforsignal.h] is
    not under [src/]; it "blocks the calling context until the
    asynchronous completion fires".  Slots fired meanwhile are steps of the
    event loop of their own. *)
Definition WaitForSignal (reply : QNetworkReply) : M unit :=
  emit (EvWaitForSignal reply).

(** [InternetService::ShowSettingsDialog], asking the host for the
    credential-entry page. *)
Definition ShowSettingsDialog : M unit := emit EvShowSettingsDialog.

(** The constructor, after the base-class initialiser. *)
Definition DropboxService_ctor : M unit :=
  v ← QSettings_value kSettingsGroup "access_token";
  set_access_token_ (toString v);;
  v ← QSettings_value kSettingsGroup "access_token_secret";
  set_access_token_secret_ (toString v);;
  emit EvRegisterUrlHandler.

Definition has_credentials (s : DropboxService) : bool :=
  negb (QString_isEmpty (access_token_ s)).

Definition GenerateAuthorisationHeader : M string :=
  s ← get_this;
  mret (Authenticator_GenerateAuthorisationHeader
          (access_token_ s) (access_token_secret_ s)).

Definition RequestFileList (path : string) : M unit :=
  let url := QUrl_fromString (kMetadataEndpoint +:+ path) in
  let request := mkRequest url [] in
  header ← GenerateAuthorisationHeader;
  let request := setRawHeader request "Authorization" header in
  reply ← network_get request;
  NewClosure (Slot_RequestFileListFinished reply).

Definition Connect : M unit :=
  s ← get_this;
  if has_credentials s then RequestFileList "" else ShowSettingsDialog.

Definition AuthenticationFinished (authenticator : DropboxAuthenticator) : M unit :=
  emit (EvDeleteLater (ObjAuthenticator authenticator));;
  set_access_token_ (access_token authenticator);;
  set_access_token_secret_ (access_token_secret authenticator);;
  s ← get_this;
  QSettings_setValue kSettingsGroup "access_token" (VString (access_token_ s));;
  s ← get_this;
  QSettings_setValue kSettingsGroup "access_token_secret"
    (VString (access_token_secret_ s));;
  QSettings_setValue kSettingsGroup "name" (VString (name authenticator));;
  emit EvConnected;;
  RequestFileList "".

Definition IsSupportedMimeType (mime_type : string) : bool :=
  String.eqb mime_type "audio/ogg" || String.eqb mime_type "audio/mpeg".

Definition FetchContentUrl (url : QUrl) : M QNetworkReply :=
  let request_url := QUrl_fromString (kMediaEndpoint +:+ QUrl_path url) in
  let request := mkRequest request_url [] in
  header ← GenerateAuthorisationHeader;
  let request := setRawHeader request "Authorization" header in
  network_post request "".

(** The body of the [foreach] of [RequestFileListFinished]. *)
Definition RequestFileListFinished_item (c : QVariant) : M unit :=
  let item := toMap c in
  let '(item, is_dir) := QMap_index item "is_dir" in
  let directory := toBool is_dir in
  if directory then
    let '(item, path) := QMap_index item "path" in
    RequestFileList (toString path)
  else
    let '(item, mime_type) := QMap_index item "mime_type" in
    if IsSupportedMimeType (toString mime_type) then
      let '(item, path) := QMap_index item "path" in
      emit (EvLog [LogString "Found:"; LogString (toString path)]);;
      let url := QUrl_empty in
      let url := QUrl_setScheme url "dropbox" in
      let '(item, path) := QMap_index item "path" in
      let url := QUrl_setPath url (toString path) in
      reply ← FetchContentUrl url;
      NewClosure (Slot_FetchContentUrlFinished reply item)
    else mret tt.

Definition RequestFileListFinished (reply : QNetworkReply) : M unit :=
  emit (EvDeleteLater (ObjReply reply));;
  let response := toMap (QJson_parse (reply_data reply)) in
  let '(response, contents) := QMap_index response "contents" in
  let contents := toList contents in
  foreach contents RequestFileListFinished_item.

Definition FetchContentUrlFinished (reply : QNetworkReply) (data : QVariantMap) : M unit :=
  emit (EvDeleteLater (ObjReply reply));;
  let response := toMap (QJson_parse (reply_data reply)) in
  let info := toString (QMap_value data "path") in
  let '(response, url) := QMap_index response "url" in
  emit (EvLog [LogUrl (toUrl url); LogString (QFileInfo_fileName info);
               LogInt (toInt (QMap_value data "bytes"));
               LogString (toString (QMap_value data "mime_type"))]);;
  let '(response, url) := QMap_index response "url" in
  tag_reply ← ReadCloudFile (toUrl url) (QFileInfo_fileName info)
                (toInt (QMap_value data "bytes"))
                (toString (QMap_value data "mime_type")) "";
  NewClosure (Slot_ReadTagsFinished tag_reply response).

Definition ReadTagsFinished (reply : TagReply) (file : QVariantMap) : M unit :=
  emit (EvLog [LogString (tag_message reply)]).

Definition GetStreamingUrlFromSongId (url : QUrl) : M QUrl :=
  reply ← FetchContentUrl url;
  WaitForSignal reply;;
  let response := toMap (QJson_parse (reply_data reply)) in
  let '(response, url) := QMap_index response "url" in
  mret (toUrl url).

(** ** The event loop *)

(** The slot a closure invokes, with the arguments bound to it. *)
Definition dispatch (c : Closure) : M unit :=
  match c with
  | Slot_RequestFileListFinished reply => RequestFileListFinished reply
  | Slot_FetchContentUrlFinished reply data => FetchContentUrlFinished reply data
  | Slot_ReadTagsFinished reply file => ReadTagsFinished reply file
  end.

(** Modelled from the spec: the Qt event loop and the firing of a
    [NewClosure] connection are not under [src/].  Execution is
    "single-threaded, callback-driven": a closure fires once, its slot runs
    to completion "and then may spawn zero or more new asynchronous
    requests". *)
Definition fire (i : nat) (c : Closure) (w : World) : World :=
  exec (dispatch c) (with_closures w (delete i (closures w))).

(** Modelled from the spec: one turn of the event loop, which is not under
    [src/].  Requests are "each independently asynchronous", so any
    connected closure may be the next to fire. *)
Inductive step : World → World → Prop :=
  | step_fire w i c : closures w !! i = Some c → step w (fire i c w).

(** Modelled from the spec: the event loop serving the completions in the
    order their closures were connected, for at most [fuel] turns. *)
Fixpoint run (fuel : nat) (w : World) : option World :=
  match closures w with
  | [] => Some w
  | c :: _ =>
      match fuel with
      | O => None
      | S fuel' => run fuel' (fire 0 c w)
      end
  end.

End DropboxService.

(** ** Requests as the remote end sees them, and remote trees *)

Section RemoteTree.

Context `{Collaborators}.

(** The fields of a listing entry as [RequestFileListFinished] reads them. *)
Definition entry_is_dir (c : QVariant) : bool :=
  toBool (QMap_value (toMap c) "is_dir").
Definition entry_path (c : QVariant) : string :=
  toString (QMap_value (toMap c) "path").
Definition entry_mime_type (c : QVariant) : string :=
  toString (QMap_value (toMap c) "mime_type").

(** The entry as bound to the content-fetch closure: the three keys the
    loop body indexed are present in it. *)
Definition entry_bound (c : QVariant) : QVariantMap :=
  ((QMap_index ((QMap_index ((QMap_index (toMap c) "is_dir").1) "mime_type").1) "path").1).

Definition signed_request (s : DropboxService) (url : string) : QNetworkRequest :=
  mkRequest (QUrl_fromString url)
    [("Authorization",
      Authenticator_GenerateAuthorisationHeader (access_token_ s) (access_token_secret_ s))].

(** The metadata request for a path and the reply object it yields. *)
Definition list_request (s : DropboxService) (path : string) : QNetworkRequest :=
  signed_request s (kMetadataEndpoint +:+ path).
Definition list_reply (s : DropboxService) (path : string) : QNetworkReply :=
  mkReply GET (list_request s path) (network GET (list_request s path)).

(** The media request for a path and the reply object it yields. *)
Definition media_request (s : DropboxService) (path : string) : QNetworkRequest :=
  signed_request s (kMediaEndpoint +:+ path).
Definition media_reply (s : DropboxService) (path : string) : QNetworkReply :=
  mkReply (POST "") (media_request s path) (network (POST "") (media_request s path)).

(** The [contents] list a listing reply decodes to. *)
Definition decoded_contents (reply : QNetworkReply) : QVariantList :=
  toList (QMap_value (toMap (QJson_parse (reply_data reply))) "contents").

(** A finite remote tree: files and directories carry their listing entry. *)
#[warnings="-register-all"]
Inductive Remote : Type :=
  | RFile (entry : QVariant)
  | RDir (entry : QVariant) (children : list Remote).

Definition entry_of (t : Remote) : QVariant :=
  match t with RFile e => e | RDir e _ => e end.

(** The remote end serves tree [t] to a service in state [s]: listing a
    directory of [t] answers with the entries of its children, which are
    served in turn. *)
#[warnings="-register-all"]
Inductive served (s : DropboxService) : Remote → Prop :=
  | served_file e :
      entry_is_dir e = false → served s (RFile e)
  | served_dir e cs :
      entry_is_dir e = true →
      decoded_contents (list_reply s (entry_path e)) = entry_of <$> cs →
      Forall (served s) cs →
      served s (RDir e cs).

(** Closure firings a subtree accounts for: one per directory, two per
    supported file (content fetch, tag read). *)
Fixpoint weight (t : Remote) : nat :=
  match t with
  | RFile e => if IsSupportedMimeType (entry_mime_type e) then 2 else 0
  | RDir _ cs => S (sum_list_with weight cs)
  end.

(** Levels of directories in a tree: the depth of the tree. *)
Fixpoint depth (t : Remote) : nat :=
  match t with
  | RFile _ => 0
  | RDir _ cs => S (max_list (depth <$> cs))
  end.

(** The metadata requests of all directories of a tree, parents first. *)
Fixpoint all_dirs (s : DropboxService) (t : Remote) : list QNetworkRequest :=
  match t with
  | RFile _ => []
  | RDir e cs => list_request s (entry_path e) :: mjoin (all_dirs s <$> cs)
  end.

(** The metadata requests recorded in a trace. *)
Definition listings (tr : list Event) : list QNetworkRequest :=
  omap (λ e, match e with EvNetwork GET r => Some r | _ => None end) tr.

(** The content fetches recorded in a trace. *)
Definition fetches (tr : list Event) : list QNetworkRequest :=
  omap (λ e, match e with EvNetwork (POST _) r => Some r | _ => None end) tr.

(** The events a computation adds to the trace of the world it starts in. *)
Definition issued {A} (m : M A) (w : World) : list Event :=
  drop (length (trace w)) (trace (exec m w)).

(** Events and closures one listing entry gives rise to. *)
Definition item_events (s : DropboxService) (c : QVariant) : list Event :=
  if entry_is_dir c then [EvNetwork GET (list_request s (entry_path c))]
  else if IsSupportedMimeType (entry_mime_type c) then
    [EvLog [LogString "Found:"; LogString (entry_path c)];
     EvNetwork (POST "") (media_request s (entry_path c))]
  else [].

Definition item_closures (s : DropboxService) (c : QVariant) : list Closure :=
  if entry_is_dir c then [Slot_RequestFileListFinished (list_reply s (entry_path c))]
  else if IsSupportedMimeType (entry_mime_type c) then
    [Slot_FetchContentUrlFinished (media_reply s (entry_path c)) (entry_bound c)]
  else [].

(** Listing replies whose closure is connected while the slot for
    [reply] runs: the next links of a chain of listing completions. *)
Definition spawned_listings (s : DropboxService) (reply : QNetworkReply) : list QNetworkReply :=
  omap (λ c, match c with Slot_RequestFileListFinished r => Some r | _ => None end)
    (closures (exec (RequestFileListFinished reply) (mkWorld s ∅ [] []))).

Inductive listing_chain (s : DropboxService) : QNetworkReply → nat → Prop :=
  | chain_stop r : listing_chain s r 0
  | chain_link r r' n :
      r' ∈ spawned_listings s r → listing_chain s r' n → listing_chain s r (S n).

(** What the closures still connected stand for. *)
Inductive Task : Type :=
  | TaskDir (t : Remote)
  | TaskFetch
  | TaskTags.

Definition task_weight (k : Task) : nat :=
  match k with
  | TaskDir t => weight t
  | TaskFetch => 2
  | TaskTags => 1
  end.

Definition task_dirs (s : DropboxService) (k : Task) : list QNetworkRequest :=
  match k with
  | TaskDir t => tail (all_dirs s t)
  | _ => []
  end.

(** The tasks the children of a listed directory leave behind. *)
Definition child_tasks (c : Remote) : list Task :=
  match c with
  | RFile e => if IsSupportedMimeType (entry_mime_type e) then [TaskFetch] else []
  | RDir _ _ => [TaskDir c]
  end.

Inductive covers (s : DropboxService) : Closure → Task → Prop :=
  | covers_dir e cs :
      served s (RDir e cs) →
      covers s (Slot_RequestFileListFinished (list_reply s (entry_path e)))
        (TaskDir (RDir e cs))
  | covers_fetch reply data :
      covers s (Slot_FetchContentUrlFinished reply data) TaskFetch
  | covers_tags reply file :
      covers s (Slot_ReadTagsFinished reply file) TaskTags.

(** The tag-read requests recorded in a trace. *)
Definition tag_reads (tr : list Event) : list Event :=
  omap (λ e, match e with EvReadCloudFile _ _ _ _ _ => Some e | _ => None end) tr.

(** The member functions of the service, as operations on the world. *)
Inductive Operation : Type :=
  | OpConnect
  | OpAuthenticationFinished (authenticator : DropboxAuthenticator)
  | OpGenerateAuthorisationHeader
  | OpRequestFileList (path : string)
  | OpRequestFileListFinished (reply : QNetworkReply)
  | OpFetchContentUrl (url : QUrl)
  | OpFetchContentUrlFinished (reply : QNetworkReply) (data : QVariantMap)
  | OpReadTagsFinished (reply : TagReply) (file : QVariantMap)
  | OpGetStreamingUrlFromSongId (url : QUrl).

Definition perform (op : Operation) : M unit :=
  match op with
  | OpConnect => Connect
  | OpAuthenticationFinished a => AuthenticationFinished a
  | OpGenerateAuthorisationHeader => GenerateAuthorisationHeader;; mret tt
  | OpRequestFileList path => RequestFileList path
  | OpRequestFileListFinished reply => RequestFileListFinished reply
  | OpFetchContentUrl url => FetchContentUrl url;; mret tt
  | OpFetchContentUrlFinished reply data => FetchContentUrlFinished reply data
  | OpReadTagsFinished reply file => ReadTagsFinished reply file
  | OpGetStreamingUrlFromSongId url => GetStreamingUrlFromSongId url;; mret tt
  end.

(** ** The blocking resolver as the specification words it *)

(** "Issues the same content-fetch request as above but blocks the calling
    context until the asynchronous completion fires, then returns the
    resolved URL directly." *)
Definition spec_ResolveStreamingUrlBlocking (url : QUrl) : M QUrl :=
  reply ← FetchContentUrl url;
  WaitForSignal reply;;
  mret (toUrl (QMap_value (toMap (QJson_parse (reply_data reply))) "url")).

End RemoteTree.

(** ** Further observations: reply objects, files of a tree, request shapes *)

Section Observations.

Context `{Collaborators}.

(** The [QNetworkReply] objects the network layer handed out, those
    scheduled for deletion, and those still bound to a connected closure.
    The replies of the tag reader are a different kind of object and are
    not counted here. *)
Definition created (tr : list Event) : list QNetworkReply :=
  omap (λ e, match e with
             | EvNetwork v r => Some (mkReply v r (network v r))
             | _ => None
             end) tr.

Definition deleted (tr : list Event) : list QNetworkReply :=
  omap (λ e, match e with EvDeleteLater (ObjReply r) => Some r | _ => None end) tr.

Definition held (cl : list Closure) : list QNetworkReply :=
  omap (λ c, match c with
             | Slot_RequestFileListFinished r => Some r
             | Slot_FetchContentUrlFinished r _ => Some r
             | Slot_ReadTagsFinished _ _ => None
             end) cl.

(** Every object, of any kind, scheduled for deletion in a trace. *)
Definition deletions (tr : list Event) : list QObject :=
  omap (λ e, match e with EvDeleteLater o => Some o | _ => None end) tr.

(** Every network reply handed out so far is either scheduled for
    deletion or waits in a closure, once each. *)
Definition balanced (w : World) : Prop :=
  deleted (trace w) ++ held (closures w) ≡ₚ created (trace w).

(** The events a turn of the event loop adds. *)
Definition added (w w' : World) : list Event :=
  drop (length (trace w)) (trace w').

(** The shape of the requests of a service in state [s]: a [GET] of the
    metadata endpoint or a bodiless [POST] to the media endpoint, each
    with the one [Authorization] header signed from [s]. *)
Definition request_shape (s : DropboxService) (e : Event) : Prop :=
  match e with
  | EvNetwork GET r => ∃ path, r = list_request s path
  | EvNetwork (POST body) r => body = "" ∧ ∃ path, r = media_request s path
  | _ => True
  end.

(** The entries of the supported files of a tree, in listing order. *)
Fixpoint all_files (t : Remote) : list QVariant :=
  match t with
  | RFile e => if IsSupportedMimeType (entry_mime_type e) then [e] else []
  | RDir _ cs => mjoin (all_files <$> cs)
  end.

(** The content fetch and the tag read a supported file entry leads to. *)
Definition file_fetch (s : DropboxService) (e : QVariant) : QNetworkRequest :=
  media_request s (entry_path e).

Definition file_tag_read (s : DropboxService) (e : QVariant) : Event :=
  EvReadCloudFile
    (toUrl (QMap_value
              (toMap (QJson_parse (reply_data (media_reply s (entry_path e))))) "url"))
    (QFileInfo_fileName (entry_path e))
    (toInt (QMap_value (toMap e) "bytes"))
    (entry_mime_type e) "".

(** What a connected closure is going to do during a traversal. *)
Inductive Job : Type :=
  | JobDir (t : Remote)
  | JobFetch (e : QVariant)
  | JobTags.

Definition job_fetches (s : DropboxService) (j : Job) : list QNetworkRequest :=
  match j with
  | JobDir t => file_fetch s <$> all_files t
  | _ => []
  end.

Definition job_tag_reads (s : DropboxService) (j : Job) : list Event :=
  match j with
  | JobDir t => file_tag_read s <$> all_files t
  | JobFetch e => [file_tag_read s e]
  | JobTags => []
  end.

Definition child_jobs (c : Remote) : list Job :=
  match c with
  | RFile e => if IsSupportedMimeType (entry_mime_type e) then [JobFetch e] else []
  | RDir _ _ => [JobDir c]
  end.

Inductive handles (s : DropboxService) : Closure → Job → Prop :=
  | handles_dir e cs :
      served s (RDir e cs) →
      handles s (Slot_RequestFileListFinished (list_reply s (entry_path e)))
        (JobDir (RDir e cs))
  | handles_fetch e :
      handles s (Slot_FetchContentUrlFinished (media_reply s (entry_path e))
                   (entry_bound e))
        (JobFetch e)
  | handles_tags reply file :
      handles s (Slot_ReadTagsFinished reply file) JobTags.

(** A reply body that does not decode to a map with a string under
    ["url"]: an error answer of the media endpoint, or no JSON at all. *)
Definition lacks_url (body : string) : Prop :=
  ∀ (m : QVariantMap) (u : string),
    QJson_parse body = VMap m → m !! "url" ≠ Some (VString u).

(** Whether a path has a directory separator. *)
Fixpoint has_slash (s : string) : bool :=
  match s with
  | EmptyString => false
  | String c r => Ascii.eqb c "/"%char || has_slash r
  end.

End Observations.

(** ** A sample account, used to run the service on concrete inputs *)

Module Sample.

Definition file_entry (path mime_type : string) (bytes : Z) : QVariant :=
  VMap (<["path" := VString path]> (<["is_dir" := VBool false]>
       (<["mime_type" := VString mime_type]> (<["bytes" := VLongLong bytes]> ∅)))).

Definition dir_entry (path : string) : QVariant :=
  VMap (<["path" := VString path]> (<["is_dir" := VBool true]> ∅)).

(** The listing of the specification's example, with one more file inside
    the directory [/a]. *)
Definition root_listing : QVariant :=
  VMap (<["contents" := VList [dir_entry "/a"; file_entry "/b.mp3" "audio/mpeg" 100;
                               file_entry "/c.mp4" "video/mp4" 5]]> ∅).
Definition a_listing : QVariant :=
  VMap (<["contents" := VList [file_entry "/a/d.ogg" "audio/ogg" 7]]> ∅).
Definition media_answer : QVariant :=
  VMap (<["url" := VString "https://dl.example/b.mp3"]>
       (<["path" := VString "/elsewhere/z.ogg"]> (<["bytes" := VLongLong 7]>
       (<["mime_type" := VString "audio/ogg"]> ∅)))).

(** Reply bodies are stood for by short tags; [sample_parse] decodes them. *)
Definition sample_parse (body : string) : QVariant :=
  if String.eqb body "root" then root_listing
  else if String.eqb body "a" then a_listing
  else if String.eqb body "media" then media_answer
  else VInvalid.

Definition sample_network (v : Verb) (r : QNetworkRequest) : string :=
  match v with
  | GET =>
      if String.eqb (url_source (request_url r)) kMetadataEndpoint then "root"
      else if String.eqb (url_source (request_url r)) (kMetadataEndpoint +:+ "/a") then "a"
      else ""
  | POST _ => "media"
  end.

#[local] Instance sample : Collaborators := {|
  Authenticator_GenerateAuthorisationHeader := λ token secret, "OAuth " +:+ token +:+ "&" +:+ secret;
  QJson_parse := sample_parse;
  QString_toLongLong := λ _, 0%Z;
  QUrl_parse_path := λ s, s;
  network := sample_network;
  tag_reader := λ _ filename _ _ _, "tags of " +:+ filename
|}.

Definition connected : DropboxService := mkService "token" "secret".
Definition fresh : World := mkWorld connected ∅ [] [].

Definition tree : Remote :=
  RDir (dir_entry "")
    [RDir (dir_entry "/a") [RFile (file_entry "/a/d.ogg" "audio/ogg" 7)];
     RFile (file_entry "/b.mp3" "audio/mpeg" 100);
     RFile (file_entry "/c.mp4" "video/mp4" 5)].

End Sample.

(** ** A remote end whose root lists itself *)

Module SampleLoop.

(** A directory entry without a path. *)
Definition pathless_dir : QVariant := VMap (<["is_dir" := VBool true]> ∅).

#[local] Instance sample_loop : Collaborators := {|
  Authenticator_GenerateAuthorisationHeader := λ token secret, token +:+ secret;
  QJson_parse := λ _, VMap (<["contents" := VList [pathless_dir]]> ∅);
  QString_toLongLong := λ _, 0%Z;
  QUrl_parse_path := λ s, s;
  network := λ _ _, "";
  tag_reader := λ _ _ _ _ _, ""
|}.

End SampleLoop.

(** ** Properties *)

Section Properties.

Context `{Collaborators}.

(** Unfolds the monad and the primitive effects in the goal. *)
Ltac run_M :=
  unfold mbind, mret, M_bind, M_ret, exec, eval, emit, NewClosure, get_this,
    set_access_token_, set_access_token_secret_, QSettings_value,
    QSettings_setValue, with_this, with_qsettings, with_closures, with_trace;
  cbn.

(** *** Indexing a [QMap] *)

Lemma QMap_index_snd (m : QVariantMap) k : (QMap_index m k).2 = QMap_value m k.
Proof. unfold QMap_index, QMap_value. by destruct (m !! k). Qed.

Lemma QMap_index_value (m : QVariantMap) k k' :
  QMap_value (QMap_index m k).1 k' = QMap_value m k'.
Proof.
  unfold QMap_index, QMap_value.
  destruct (m !! k) eqn:Hk; [done|]. simpl.
  destruct (decide (k = k')) as [->|Hne].
  - by rewrite lookup_insert_eq, Hk.
  - by rewrite lookup_insert_ne.
Qed.

Lemma QMap_index_eta (m : QVariantMap) k :
  QMap_index m k = ((QMap_index m k).1, QMap_value m k).
Proof. rewrite <- QMap_index_snd. by destruct (QMap_index m k). Qed.

Lemma QMap_index_again (m : QVariantMap) k :
  (QMap_index (QMap_index m k).1 k).1 = (QMap_index m k).1.
Proof.
  unfold QMap_index. destruct (m !! k) eqn:Hk; simpl.
  - by rewrite Hk.
  - by rewrite lookup_insert_eq.
Qed.

(** *** What each member function does to the world *)

Lemma issued_app {A} (m : M A) w evs :
  trace (exec m w) = trace w ++ evs → issued m w = evs.
Proof. unfold issued. intros ->. by rewrite drop_app_length. Qed.

Lemma RequestFileList_run path w :
  RequestFileList path w =
    (tt, mkWorld (this w) (qsettings w)
           (closures w ++ [Slot_RequestFileListFinished (list_reply (this w) path)])
           (trace w ++ [EvNetwork GET (list_request (this w) path)])).
Proof. reflexivity. Qed.

Lemma FetchContentUrl_run url w :
  FetchContentUrl url w =
    (media_reply (this w) (QUrl_path url),
     with_trace w (trace w ++ [EvNetwork (POST "") (media_request (this w) (QUrl_path url))])).
Proof. reflexivity. Qed.

Lemma IsSupportedMimeType_spec mime_type :
  IsSupportedMimeType mime_type = true ↔
  mime_type = "audio/ogg" ∨ mime_type = "audio/mpeg".
Proof.
  unfold IsSupportedMimeType. rewrite orb_true_iff, !String.eqb_eq. tauto.
Qed.

Lemma item_directory c w :
  entry_is_dir c = true →
  RequestFileListFinished_item c w = RequestFileList (entry_path c) w.
Proof.
  unfold entry_is_dir, entry_path, RequestFileListFinished_item. intros Hd.
  rewrite (QMap_index_eta (toMap c) "is_dir"), Hd.
  rewrite (QMap_index_eta _ "path"), QMap_index_value. done.
Qed.

Lemma item_supported c w :
  entry_is_dir c = false →
  IsSupportedMimeType (entry_mime_type c) = true →
  RequestFileListFinished_item c w =
    (tt, mkWorld (this w) (qsettings w)
           (closures w ++
              [Slot_FetchContentUrlFinished (media_reply (this w) (entry_path c))
                 (entry_bound c)])
           (trace w ++
              [EvLog [LogString "Found:"; LogString (entry_path c)];
               EvNetwork (POST "") (media_request (this w) (entry_path c))])).
Proof.
  unfold entry_is_dir, entry_path, entry_mime_type, entry_bound,
    RequestFileListFinished_item. intros Hd Hm.
  rewrite (QMap_index_eta (toMap c) "is_dir"), Hd.
  rewrite (QMap_index_eta _ "mime_type"), QMap_index_value, Hm.
  rewrite (QMap_index_eta _ "path"), !QMap_index_value.
  rewrite (QMap_index_eta (QMap_index _ "path").1 "path"), QMap_index_again,
    !QMap_index_value.
  run_M. rewrite FetchContentUrl_run. run_M. by rewrite <- app_assoc.
Qed.

Lemma item_skipped c w :
  entry_is_dir c = false →
  IsSupportedMimeType (entry_mime_type c) = false →
  RequestFileListFinished_item c w = (tt, w).
Proof.
  unfold entry_is_dir, entry_mime_type, RequestFileListFinished_item. intros Hd Hm.
  rewrite (QMap_index_eta (toMap c) "is_dir"), Hd.
  rewrite (QMap_index_eta _ "mime_type"), QMap_index_value, Hm. done.
Qed.

Lemma RequestFileListFinished_run reply w :
  RequestFileListFinished reply w =
    foreach (decoded_contents reply) RequestFileListFinished_item
      (with_trace w (trace w ++ [EvDeleteLater (ObjReply reply)])).
Proof.
  unfold RequestFileListFinished, decoded_contents.
  rewrite (QMap_index_eta _ "contents"). reflexivity.
Qed.

Lemma item_run c w :
  RequestFileListFinished_item c w =
    (tt, mkWorld (this w) (qsettings w)
           (closures w ++ item_closures (this w) c)
           (trace w ++ item_events (this w) c)).
Proof.
  unfold item_closures, item_events.
  destruct (entry_is_dir c) eqn:Hd.
  - by rewrite item_directory, RequestFileList_run.
  - destruct (IsSupportedMimeType (entry_mime_type c)) eqn:Hm.
    + by rewrite item_supported.
    + rewrite item_skipped, !app_nil_r by done. by destruct w.
Qed.

Lemma foreach_item_run l w :
  foreach l RequestFileListFinished_item w =
    (tt, mkWorld (this w) (qsettings w)
           (closures w ++ mjoin (item_closures (this w) <$> l))
           (trace w ++ mjoin (item_events (this w) <$> l))).
Proof.
  revert w. induction l as [|c l IH]; intros w.
  - cbn. rewrite !app_nil_r. by destruct w.
  - cbn [foreach]. unfold mbind, M_bind. rewrite item_run, IH. cbn.
    by rewrite <- !app_assoc.
Qed.

Lemma RequestFileListFinished_world reply w :
  RequestFileListFinished reply w =
    (tt, mkWorld (this w) (qsettings w)
           (closures w ++ mjoin (item_closures (this w) <$> decoded_contents reply))
           (trace w ++ EvDeleteLater (ObjReply reply)
              :: mjoin (item_events (this w) <$> decoded_contents reply))).
Proof.
  rewrite RequestFileListFinished_run, foreach_item_run. cbn.
  by rewrite <- app_assoc.
Qed.

Lemma mjoin_cons {A} (x : list A) (l : list (list A)) : mjoin (x :: l) = x ++ mjoin l.
Proof. done. Qed.

Lemma fetches_app tr1 tr2 : fetches (tr1 ++ tr2) = fetches tr1 ++ fetches tr2.
Proof. apply omap_app. Qed.

Lemma listings_app tr1 tr2 : listings (tr1 ++ tr2) = listings tr1 ++ listings tr2.
Proof. apply omap_app. Qed.

Lemma fetches_items s l :
  fetches (mjoin (item_events s <$> l)) =
    (λ c, media_request s (entry_path c)) <$>
      filter (λ c, entry_is_dir c = false ∧
                   (entry_mime_type c = "audio/ogg" ∨ entry_mime_type c = "audio/mpeg")) l.
Proof.
  induction l as [|c l IH]; [done|].
  rewrite fmap_cons, mjoin_cons, fetches_app, IH, filter_cons.
  unfold item_events. destruct (entry_is_dir c) eqn:Hd.
  - rewrite decide_False; [done|]. intros [? _]. congruence.
  - destruct (IsSupportedMimeType (entry_mime_type c)) eqn:Hm.
    + rewrite decide_True; [done|]. split; [done|]. by apply IsSupportedMimeType_spec.
    + rewrite decide_False; [done|]. intros [_ Hs%IsSupportedMimeType_spec]. congruence.
Qed.

Lemma listings_items s l :
  listings (mjoin (item_events s <$> l)) =
    (λ c, list_request s (entry_path c)) <$> filter (λ c, entry_is_dir c = true) l.
Proof.
  induction l as [|c l IH]; [done|].
  rewrite fmap_cons, mjoin_cons, listings_app, IH, filter_cons.
  unfold item_events. destruct (entry_is_dir c) eqn:Hd.
  - by rewrite decide_True.
  - rewrite decide_False by done.
    by destruct (IsSupportedMimeType (entry_mime_type c)).
Qed.

(** *** Filtering the entries of a listing *)

(** C1. Of the entries of a decoded listing response that are not
    directories, [RequestFileListFinished] fetches the content URL of
    exactly those whose MIME type string equals ["audio/ogg"] or
    ["audio/mpeg"]; for any other such entry the loop body leaves the world
    as it was, so no request of any kind is issued. *)
Theorem C1_fetch_iff_supported_mime (reply : QNetworkReply) (w : World) :
  fetches (issued (RequestFileListFinished reply) w) =
    (λ c, media_request (this w) (entry_path c)) <$>
      filter (λ c, entry_is_dir c = false ∧
                   (entry_mime_type c = "audio/ogg" ∨ entry_mime_type c = "audio/mpeg"))
        (decoded_contents reply)
  ∧ ∀ (c : QVariant) (w' : World),
      entry_is_dir c = false →
      (fetches (issued (RequestFileListFinished_item c) w') =
         [media_request (this w') (entry_path c)]
       ↔ entry_mime_type c = "audio/ogg" ∨ entry_mime_type c = "audio/mpeg")
      ∧ (¬ (entry_mime_type c = "audio/ogg" ∨ entry_mime_type c = "audio/mpeg") →
         exec (RequestFileListFinished_item c) w' = w').
Proof.
  split.
  - erewrite issued_app; last first.
    { unfold exec. rewrite RequestFileListFinished_world. cbn. reflexivity. }
    change (fetches (?e :: ?l)) with (fetches ([e] ++ l)).
    by rewrite fetches_app, fetches_items.
  - intros c w' Hd. rewrite <- IsSupportedMimeType_spec.
    destruct (IsSupportedMimeType (entry_mime_type c)) eqn:Hm.
    + split; [|done]. split; [done|intros _].
      erewrite issued_app; last first.
      { unfold exec. rewrite item_supported by done. cbn. reflexivity. }
      done.
    + assert (exec (RequestFileListFinished_item c) w' = w') as Hw.
      { unfold exec. by rewrite item_skipped. }
      unfold issued. rewrite Hw, drop_all. split; [|done]. split; [done|congruence].
Qed.

(** C2. For an entry that is a directory the loop body of
    [RequestFileListFinished] is one call [RequestFileList(path)] with the
    entry's path: one metadata request and its closure, and no content
    fetch, whatever the entry's MIME type.  Over a whole response the
    metadata requests are those of its directory entries, in order. *)
Theorem C2_directory_entry_listed_once (c : QVariant) (w : World) :
  entry_is_dir c = true →
  RequestFileListFinished_item c w = RequestFileList (entry_path c) w
  ∧ issued (RequestFileListFinished_item c) w =
      [EvNetwork GET (list_request (this w) (entry_path c))]
  ∧ fetches (issued (RequestFileListFinished_item c) w) = []
  ∧ closures (exec (RequestFileListFinished_item c) w) =
      closures w ++ [Slot_RequestFileListFinished (list_reply (this w) (entry_path c))]
  ∧ ∀ reply,
      listings (issued (RequestFileListFinished reply) w) =
        (λ c, list_request (this w) (entry_path c)) <$>
          filter (λ c, entry_is_dir c = true) (decoded_contents reply).
Proof.
  intros Hd.
  assert (issued (RequestFileListFinished_item c) w =
            [EvNetwork GET (list_request (this w) (entry_path c))]) as Hev.
  { apply issued_app. unfold exec. by rewrite item_directory, RequestFileList_run. }
  split_and!.
  - by apply item_directory.
  - done.
  - by rewrite Hev.
  - unfold exec. by rewrite item_directory, RequestFileList_run.
  - intros reply. erewrite issued_app; last first.
    { unfold exec. rewrite RequestFileListFinished_world. cbn. reflexivity. }
    change (listings (?e :: ?l)) with (listings ([e] ++ l)).
    by rewrite listings_app, listings_items.
Qed.

(** C3. When the body of a listing reply does not decode to a map holding
    a list under ["contents"], [RequestFileListFinished] only schedules the
    reply for deletion: no request, no closure, no other signal, and the
    service's fields and the settings are as before. *)
Theorem C3_undecodable_listing_is_empty (reply : QNetworkReply) (w : World) :
  (¬ ∃ (m : QVariantMap) (l : QVariantList),
       QJson_parse (reply_data reply) = VMap m ∧ m !! "contents" = Some (VList l)) →
  exec (RequestFileListFinished reply) w =
    with_trace w (trace w ++ [EvDeleteLater (ObjReply reply)])
  ∧ issued (RequestFileListFinished reply) w = [EvDeleteLater (ObjReply reply)]
  ∧ this (exec (RequestFileListFinished reply) w) = this w
  ∧ closures (exec (RequestFileListFinished reply) w) = closures w.
Proof.
  intros Hno.
  assert (decoded_contents reply = []) as Hnil.
  { unfold decoded_contents, QMap_value.
    destruct (QJson_parse (reply_data reply)) as [| | | | | |m] eqn:Hp; try done.
    cbn. destruct (m !! "contents") as [[| | | | |l|]|] eqn:Hc; try done.
    destruct Hno. eauto. }
  assert (exec (RequestFileListFinished reply) w =
            with_trace w (trace w ++ [EvDeleteLater (ObjReply reply)])) as Hw.
  { unfold exec. rewrite RequestFileListFinished_world, Hnil. cbn.
    by rewrite app_nil_r. }
  split_and!; [done| |by rewrite Hw..].
  apply issued_app. by rewrite Hw.
Qed.

(** *** Connecting and authenticating *)

Lemma has_credentials_spec s : has_credentials s = true ↔ access_token_ s ≠ "".
Proof. unfold has_credentials. destruct (access_token_ s); cbn; naive_solver. Qed.

Lemma Connect_run w :
  Connect w =
    if has_credentials (this w) then RequestFileList "" w
    else (tt, with_trace w (trace w ++ [EvShowSettingsDialog])).
Proof. unfold Connect. run_M. by destruct (has_credentials (this w)). Qed.

Lemma AuthenticationFinished_run a w :
  AuthenticationFinished a w =
    let s := mkService (access_token a) (access_token_secret a) in
    (tt, mkWorld s
           (<[QSettings_key kSettingsGroup "name" := VString (name a)]>
            (<[QSettings_key kSettingsGroup "access_token_secret" :=
                 VString (access_token_secret a)]>
             (<[QSettings_key kSettingsGroup "access_token" :=
                  VString (access_token a)]> (qsettings w))))
           (closures w ++ [Slot_RequestFileListFinished (list_reply s "")])
           (trace w ++ [EvDeleteLater (ObjAuthenticator a); EvConnected;
                        EvNetwork GET (list_request s "")])).
Proof.
  unfold AuthenticationFinished. run_M. rewrite RequestFileList_run. cbn.
  by rewrite <- !app_assoc.
Qed.

Lemma Connect_with_credentials w :
  has_credentials (this w) = true →
  Connect w = RequestFileList "" w
  ∧ issued Connect w = [EvNetwork GET (list_request (this w) "")].
Proof.
  intros Hc.
  assert (Connect w = RequestFileList "" w) as Hw by (by rewrite Connect_run, Hc).
  split; [done|]. apply issued_app. unfold exec. by rewrite Hw, RequestFileList_run.
Qed.

(** C4. After [AuthenticationFinished] has run with an authenticator that
    carries a token, the service holds the authenticator's token pair, the
    settings group holds that token, secret and name (other keys are
    untouched), [Connected] has been emitted, a listing of the root path
    [""] has been requested, and [has_credentials] answers true. *)
Theorem C4_authentication_persists_and_lists (a : DropboxAuthenticator) (w : World) :
  access_token a ≠ "" →
  let w' := exec (AuthenticationFinished a) w in
  this w' = mkService (access_token a) (access_token_secret a)
  ∧ qsettings w' !! QSettings_key kSettingsGroup "access_token" =
      Some (VString (access_token a))
  ∧ qsettings w' !! QSettings_key kSettingsGroup "access_token_secret" =
      Some (VString (access_token_secret a))
  ∧ qsettings w' !! QSettings_key kSettingsGroup "name" = Some (VString (name a))
  ∧ (∀ k, k ≠ QSettings_key kSettingsGroup "access_token" →
          k ≠ QSettings_key kSettingsGroup "access_token_secret" →
          k ≠ QSettings_key kSettingsGroup "name" →
          qsettings w' !! k = qsettings w !! k)
  ∧ issued (AuthenticationFinished a) w =
      [EvDeleteLater (ObjAuthenticator a); EvConnected;
       EvNetwork GET (list_request (this w') "")]
  ∧ closures w' = closures w ++ [Slot_RequestFileListFinished (list_reply (this w') "")]
  ∧ has_credentials (this w') = true.
Proof.
  intros Htoken w'. pose proof (AuthenticationFinished_run a w) as Hrun.
  unfold w', exec. rewrite Hrun. cbv zeta. cbn [snd this qsettings closures].
  split_and!.
  - done.
  - do 2 (rewrite lookup_insert_ne by done). by rewrite lookup_insert_eq.
  - rewrite lookup_insert_ne by done. by rewrite lookup_insert_eq.
  - by rewrite lookup_insert_eq.
  - intros k H1 H2 H3. by rewrite !lookup_insert_ne.
  - apply issued_app. unfold exec. by rewrite Hrun.
  - done.
  - by apply has_credentials_spec.
Qed.

(** C5. [Connect] does one of two things.  With credentials it is the call
    [RequestFileList("")]: one metadata request for the root path and no
    settings dialog.  Without, it only asks the host for the settings
    dialog and touches neither network nor closures.  Either way it
    returns nothing. *)
Theorem C5_connect_branches_on_credentials (w : World) :
  (has_credentials (this w) = true →
     Connect w = RequestFileList "" w
     ∧ issued Connect w = [EvNetwork GET (list_request (this w) "")])
  ∧ (has_credentials (this w) = false →
     Connect w = (tt, with_trace w (trace w ++ [EvShowSettingsDialog]))
     ∧ issued Connect w = [EvShowSettingsDialog]
     ∧ closures (exec Connect w) = closures w).
Proof.
  split; intros Hc.
  - by apply Connect_with_credentials.
  - assert (Connect w = (tt, with_trace w (trace w ++ [EvShowSettingsDialog]))) as Hw
      by (by rewrite Connect_run, Hc).
    split_and!; [done| |by unfold exec; rewrite Hw].
    apply issued_app. unfold exec. by rewrite Hw.
Qed.

(** C10. [has_credentials] looks at the access token only: it is true
    exactly when that string is not empty.  In a state with a non-empty
    token and an empty secret it is true, and [Connect] requests the root
    listing and does not ask for the settings dialog. *)
Theorem C10_credentials_ignore_secret (w : World) :
  (∀ s, has_credentials s = true ↔ access_token_ s ≠ "")
  ∧ (access_token_ (this w) ≠ "" → access_token_secret_ (this w) = "" →
     has_credentials (this w) = true
     ∧ Connect w = RequestFileList "" w
     ∧ issued Connect w = [EvNetwork GET (list_request (this w) "")]
     ∧ EvShowSettingsDialog ∉ issued Connect w).
Proof.
  split; [apply has_credentials_spec|]. intros Ht _.
  apply has_credentials_spec in Ht.
  destruct (Connect_with_credentials w Ht) as [Hw Hev].
  split_and!; [done..|]. rewrite Hev. by intros ?%list_elem_of_singleton.
Qed.

(** *** Content fetches *)

Lemma FetchContentUrlFinished_run reply data w :
  FetchContentUrlFinished reply data w =
    let response := toMap (QJson_parse (reply_data reply)) in
    let url := toUrl (QMap_value response "url") in
    let filename := QFileInfo_fileName (toString (QMap_value data "path")) in
    let size := toInt (QMap_value data "bytes") in
    let mime_type := toString (QMap_value data "mime_type") in
    (tt, mkWorld (this w) (qsettings w)
           (closures w ++
              [Slot_ReadTagsFinished
                 (mkTagReply url filename size mime_type ""
                    (tag_reader url filename size mime_type ""))
                 (QMap_index response "url").1])
           (trace w ++
              [EvDeleteLater (ObjReply reply);
               EvLog [LogUrl url; LogString filename; LogInt size; LogString mime_type];
               EvReadCloudFile url filename size mime_type ""])).
Proof.
  unfold FetchContentUrlFinished.
  rewrite (QMap_index_eta _ "url").
  rewrite (QMap_index_eta (QMap_index _ "url").1 "url"), QMap_index_again,
    !QMap_index_value.
  unfold ReadCloudFile. run_M. by rewrite <- !app_assoc.
Qed.

Lemma GetStreamingUrlFromSongId_run url w :
  GetStreamingUrlFromSongId url w =
    let reply := media_reply (this w) (QUrl_path url) in
    (toUrl (QMap_value (toMap (QJson_parse (reply_data reply))) "url"),
     with_trace w (trace w ++ [EvNetwork (POST "") (media_request (this w) (QUrl_path url));
                               EvWaitForSignal reply])).
Proof.
  unfold GetStreamingUrlFromSongId, WaitForSignal. run_M.
  rewrite FetchContentUrl_run. run_M.
  rewrite (QMap_index_eta _ "url"). by rewrite <- !app_assoc.
Qed.

Lemma entry_bound_value c k : QMap_value (entry_bound c) k = QMap_value (toMap c) k.
Proof. unfold entry_bound. by rewrite !QMap_index_value. Qed.

(** C7 (amended). Of what [FetchContentUrlFinished] passes to the tag
    reader only the temporary URL is decoded from the reply of the content
    fetch (its ["url"] field).  The file name, the size and the MIME type
    are read from the map bound to the closure, which for a closure
    connected by [RequestFileListFinished] is the listing entry of the
    file. *)
Theorem C7_descriptor_from_reply_and_entry
    (reply : QNetworkReply) (data : QVariantMap) (w : World) :
  let response := toMap (QJson_parse (reply_data reply)) in
  tag_reads (issued (FetchContentUrlFinished reply data) w) =
    [EvReadCloudFile (toUrl (QMap_value response "url"))
       (QFileInfo_fileName (toString (QMap_value data "path")))
       (toInt (QMap_value data "bytes"))
       (toString (QMap_value data "mime_type")) ""]
  ∧ ∀ c : QVariant,
      tag_reads (issued (FetchContentUrlFinished reply (entry_bound c)) w) =
        [EvReadCloudFile (toUrl (QMap_value response "url"))
           (QFileInfo_fileName (entry_path c))
           (toInt (QMap_value (toMap c) "bytes"))
           (entry_mime_type c) ""].
Proof.
  assert (∀ d, tag_reads (issued (FetchContentUrlFinished reply d) w) =
    [EvReadCloudFile (toUrl (QMap_value (toMap (QJson_parse (reply_data reply))) "url"))
       (QFileInfo_fileName (toString (QMap_value d "path")))
       (toInt (QMap_value d "bytes"))
       (toString (QMap_value d "mime_type")) ""]) as Hd.
  { intros d. erewrite issued_app; last first.
    { unfold exec. rewrite FetchContentUrlFinished_run. cbn. reflexivity. }
    done. }
  split; [apply Hd|]. intros c. rewrite Hd.
  unfold entry_path, entry_mime_type. by rewrite !entry_bound_value.
Qed.

(** C8. [GetStreamingUrlFromSongId] is the specification's blocking
    resolver: it issues the request of [FetchContentUrl] for the given URL
    (the media endpoint followed by the URL's path, with the signed
    [Authorization] header), waits for that reply, and returns the ["url"]
    field of the decoded reply.  A listing entry with the same path makes
    [RequestFileListFinished] issue the very same request. *)
Theorem C8_blocking_resolver_same_request (url : QUrl) (w : World) :
  GetStreamingUrlFromSongId url w = spec_ResolveStreamingUrlBlocking url w
  ∧ issued (GetStreamingUrlFromSongId url) w =
      issued (FetchContentUrl url) w ++ [EvWaitForSignal (eval (FetchContentUrl url) w)]
  ∧ fetches (issued (GetStreamingUrlFromSongId url) w) =
      [mkRequest (QUrl_fromString (kMediaEndpoint +:+ QUrl_path url))
         [("Authorization", eval GenerateAuthorisationHeader w)]]
  ∧ (∀ c : QVariant,
       entry_is_dir c = false →
       IsSupportedMimeType (entry_mime_type c) = true →
       entry_path c = QUrl_path url →
       fetches (issued (RequestFileListFinished_item c) w) =
         fetches (issued (GetStreamingUrlFromSongId url) w))
  ∧ eval (GetStreamingUrlFromSongId url) w =
      toUrl (QMap_value
               (toMap (QJson_parse (reply_data (eval (FetchContentUrl url) w)))) "url").
Proof.
  assert (issued (GetStreamingUrlFromSongId url) w =
            [EvNetwork (POST "") (media_request (this w) (QUrl_path url));
             EvWaitForSignal (media_reply (this w) (QUrl_path url))]) as Hev.
  { apply issued_app. unfold exec. by rewrite GetStreamingUrlFromSongId_run. }
  split_and!.
  - rewrite GetStreamingUrlFromSongId_run.
    unfold spec_ResolveStreamingUrlBlocking, WaitForSignal. run_M.
    rewrite FetchContentUrl_run. run_M. by rewrite <- !app_assoc.
  - rewrite Hev. erewrite (issued_app (FetchContentUrl url)); last first.
    { unfold exec. rewrite FetchContentUrl_run. cbn. reflexivity. }
    unfold eval. by rewrite FetchContentUrl_run.
  - by rewrite Hev.
  - intros c Hd Hm Hp. rewrite Hev. erewrite issued_app; last first.
    { unfold exec. rewrite item_supported by done. cbn. reflexivity. }
    by rewrite Hp.
  - unfold eval. by rewrite GetStreamingUrlFromSongId_run, FetchContentUrl_run.
Qed.

(** *** The credential fields *)

Lemma ctor_run w :
  DropboxService_ctor w =
    (tt, mkWorld
           (mkService
              (toString (default VInvalid
                 (qsettings w !! QSettings_key kSettingsGroup "access_token")))
              (toString (default VInvalid
                 (qsettings w !! QSettings_key kSettingsGroup "access_token_secret"))))
           (qsettings w) (closures w) (trace w ++ [EvRegisterUrlHandler])).
Proof. reflexivity. Qed.

Lemma dispatch_this c w : this (exec (dispatch c) w) = this w.
Proof.
  unfold exec. destruct c; cbn [dispatch].
  - by rewrite RequestFileListFinished_world.
  - by rewrite FetchContentUrlFinished_run.
  - done.
Qed.

(** C9. The constructor reads both credential fields from the settings;
    [AuthenticationFinished] replaces both by the authenticator's pair;
    every other member function, and every slot fired by the event loop,
    leaves both fields as they were. *)
Theorem C9_credentials_only_replaced_wholesale (w : World) :
  this (exec DropboxService_ctor w) =
    mkService
      (toString (eval (QSettings_value kSettingsGroup "access_token") w))
      (toString (eval (QSettings_value kSettingsGroup "access_token_secret") w))
  ∧ (∀ op : Operation,
       this (exec (perform op) w) =
         match op with
         | OpAuthenticationFinished a =>
             mkService (access_token a) (access_token_secret a)
         | _ => this w
         end)
  ∧ (∀ w' : World, step w w' → this w' = this w).
Proof.
  split_and!.
  - unfold exec. by rewrite ctor_run.
  - intros op. unfold exec. destruct op; cbn [perform].
    + rewrite Connect_run. by destruct (has_credentials (this w)).
    + by rewrite AuthenticationFinished_run.
    + done.
    + done.
    + by rewrite RequestFileListFinished_world.
    + unfold mbind, M_bind. by rewrite FetchContentUrl_run.
    + by rewrite FetchContentUrlFinished_run.
    + done.
    + unfold mbind, M_bind. by rewrite GetStreamingUrlFromSongId_run.
  - intros w' Hstep. destruct Hstep as [w0 i c _]. unfold fire.
    by rewrite dispatch_this.
Qed.

(** *** The traversal of a remote tree *)

Lemma Remote_ind' (P : Remote → Prop) :
  (∀ e, P (RFile e)) →
  (∀ e cs, Forall P cs → P (RDir e cs)) →
  ∀ t, P t.
Proof.
  intros Hfile Hdir. fix IH 1. intros [e|e cs].
  - apply Hfile.
  - apply Hdir. induction cs as [|c cs IHcs]; constructor; [apply IH|apply IHcs].
Qed.

Lemma served_entry_is_dir s t :
  served s t → entry_is_dir (entry_of t) = match t with RFile _ => false | RDir _ _ => true end.
Proof. by destruct 1. Qed.

(** The closures connected for the children of a served directory are
    covered by the children's tasks. *)
Lemma children_covered s cs :
  Forall (served s) cs →
  Forall2 (covers s) (mjoin (item_closures s <$> (entry_of <$> cs)))
    (mjoin (child_tasks <$> cs)).
Proof.
  induction 1 as [|c cs Hc _ IH]; [constructor|].
  rewrite !fmap_cons, !mjoin_cons. apply Forall2_app; [|done].
  unfold item_closures. rewrite (served_entry_is_dir _ _ Hc).
  destruct Hc as [e Hd|e cs' Hd Hl Hcs]; cbn.
  - destruct (IsSupportedMimeType (entry_mime_type e)); repeat constructor.
  - constructor; [by apply covers_dir; constructor|constructor].
Qed.

Lemma children_weight cs :
  sum_list_with task_weight (mjoin (child_tasks <$> cs)) = sum_list_with weight cs.
Proof.
  induction cs as [|c cs IH]; [done|].
  rewrite fmap_cons, mjoin_cons, sum_list_with_app, IH. cbn [sum_list_with].
  f_equal. destruct c as [e|e cs']; cbn [child_tasks].
  - cbn [weight]. by destruct (IsSupportedMimeType (entry_mime_type e)).
  - cbn. lia.
Qed.

Lemma app_shuffle {A} (a b c d : list A) :
  (a ++ b) ++ (c ++ d) ≡ₚ (a ++ c) ++ (b ++ d).
Proof.
  rewrite <- !(assoc_L (++)). f_equiv. rewrite !(assoc_L (++)). f_equiv.
  apply (comm (++)).
Qed.

Lemma child_dirs s c :
  served s c →
  listings (item_events s (entry_of c)) ++ mjoin (task_dirs s <$> child_tasks c)
  = all_dirs s c.
Proof.
  intros Hc. unfold item_events. rewrite (served_entry_is_dir _ _ Hc).
  destruct Hc as [e Hd|e cs' Hd Hl Hcs]; cbn [child_tasks all_dirs entry_of].
  - by destruct (IsSupportedMimeType (entry_mime_type e)).
  - cbn. by rewrite app_nil_r.
Qed.

(** The metadata requests issued for the children, with what remains
    below them, are the directories below the parent. *)
Lemma children_dirs s cs :
  Forall (served s) cs →
  listings (mjoin (item_events s <$> (entry_of <$> cs)))
    ++ mjoin (task_dirs s <$> mjoin (child_tasks <$> cs))
  ≡ₚ mjoin (all_dirs s <$> cs).
Proof.
  induction 1 as [|c cs Hc _ IH]; [done|].
  rewrite !fmap_cons, !mjoin_cons, listings_app, fmap_app, join_app.
  by rewrite <- IH, <- (child_dirs s c Hc), app_shuffle.
Qed.

Lemma sum_list_with_delete {A} (f : A → nat) (l : list A) i x :
  l !! i = Some x → sum_list_with f l = f x + sum_list_with f (delete i l).
Proof. intros Hi. by rewrite (delete_Permutation l i x Hi) at 1. Qed.

(** One firing of the event loop: the tasks lose one unit of weight, and
    every directory is still either listed or below a pending task. *)
Lemma step_tasks s w w' tasks :
  this w = s →
  Forall2 (covers s) (closures w) tasks →
  step w w' →
  ∃ tasks',
    this w' = s
    ∧ Forall2 (covers s) (closures w') tasks'
    ∧ S (sum_list_with task_weight tasks') = sum_list_with task_weight tasks
    ∧ listings (trace w') ++ mjoin (task_dirs s <$> tasks')
      ≡ₚ listings (trace w) ++ mjoin (task_dirs s <$> tasks).
Proof.
  intros Hs Hcov Hstep. destruct Hstep as [w i c Hi].
  destruct (Forall2_lookup_l _ _ _ _ _ Hcov Hi) as (k & Hk & Hck).
  pose proof (Forall2_delete _ _ _ i Hcov) as Hdel.
  pose proof (sum_list_with_delete task_weight _ _ _ Hk) as Hsum.
  pose proof (delete_Permutation _ _ _ Hk) as Hperm.
  unfold fire, exec. destruct Hck as [e cs Hserved|reply data|reply file]; cbn [dispatch].
  - inversion Hserved as [|e' cs' Hd Hl Hcs]; subst e' cs'.
    rewrite RequestFileListFinished_world. cbn [snd this closures trace with_closures].
    rewrite Hs, Hl.
    exists (delete i tasks ++ mjoin (child_tasks <$> cs)). split_and!.
    + done.
    + apply Forall2_app; [done|]. by apply children_covered.
    + rewrite sum_list_with_app, children_weight, Hsum. cbn [task_weight weight]. lia.
    + rewrite (fmap_Permutation _ _ _ Hperm), fmap_app, join_app, fmap_cons, mjoin_cons.
      cbn [task_dirs all_dirs tail].
      pose proof (children_dirs s cs Hcs) as Hdirs. rewrite <- Hdirs.
      change (?x :: ?l) with ([x] ++ l). rewrite !listings_app.
      change (listings [EvDeleteLater _]) with (@nil QNetworkRequest). cbn [app].
      rewrite <- !(assoc_L (++)). do 2 f_equiv. apply (comm (++)).
  - rewrite FetchContentUrlFinished_run. cbn [snd this closures trace with_closures].
    exists (delete i tasks ++ [TaskTags]). split_and!.
    + done.
    + apply Forall2_app; [done|]. repeat constructor.
    + rewrite sum_list_with_app, Hsum. cbn. lia.
    + rewrite (fmap_Permutation _ _ _ Hperm), fmap_app, join_app, fmap_cons, mjoin_cons.
      rewrite listings_app. cbn. by rewrite !app_nil_r.
  - exists (delete i tasks). split_and!.
    + done.
    + done.
    + rewrite Hsum. cbn. lia.
    + rewrite (fmap_Permutation _ _ _ Hperm), fmap_cons, mjoin_cons.
      unfold ReadTagsFinished. run_M. rewrite listings_app. cbn. by rewrite app_nil_r.
Qed.

Lemma nsteps_tasks s n w w' tasks :
  this w = s →
  Forall2 (covers s) (closures w) tasks →
  nsteps step n w w' →
  ∃ tasks',
    this w' = s
    ∧ Forall2 (covers s) (closures w') tasks'
    ∧ n + sum_list_with task_weight tasks' = sum_list_with task_weight tasks
    ∧ listings (trace w') ++ mjoin (task_dirs s <$> tasks')
      ≡ₚ listings (trace w) ++ mjoin (task_dirs s <$> tasks).
Proof.
  intros Hs Hcov Hn. revert tasks Hs Hcov.
  induction Hn as [w|n w w1 w' Hstep _ IH]; intros tasks Hs Hcov.
  - exists tasks. by split_and!.
  - destruct (step_tasks s w w1 tasks Hs Hcov Hstep) as (tasks1 & Hs1 & Hcov1 & Hw1 & Hp1).
    destruct (IH tasks1 Hs1 Hcov1) as (tasks' & Hs' & Hcov' & Hw' & Hp').
    exists tasks'. split_and!; [done|done|lia|by rewrite Hp'].
Qed.

Lemma covers_weight s c k : covers s c k → (0 < task_weight k)%nat.
Proof. destruct 1; cbn; lia. Qed.

Lemma tasks_done s cl tasks :
  Forall2 (covers s) cl tasks →
  sum_list_with task_weight tasks = 0 → cl = [].
Proof.
  destruct 1 as [|c k cl tasks Hc _]; [done|].
  apply covers_weight in Hc. cbn. lia.
Qed.

(** Firing in connection order empties the closure list when the fuel
    covers the weight of the tasks. *)
Lemma run_tasks s fuel w tasks :
  this w = s →
  Forall2 (covers s) (closures w) tasks →
  (sum_list_with task_weight tasks ≤ fuel)%nat →
  ∃ w', run fuel w = Some w' ∧ closures w' = []
        ∧ nsteps step (sum_list_with task_weight tasks) w w'.
Proof.
  revert w tasks. induction fuel as [|fuel IH]; intros w tasks Hs Hcov Hfuel.
  - assert (sum_list_with task_weight tasks = 0) as H0 by lia.
    pose proof (tasks_done _ _ _ Hcov H0) as Hnil.
    exists w. rewrite H0. cbn. rewrite Hnil. split_and!; [done|done|constructor].
  - destruct (closures w) as [|c rest] eqn:Hcl.
    + apply Forall2_nil_inv_l in Hcov as ->.
      exists w. cbn. rewrite Hcl. split_and!; [done|done|constructor].
    + assert (step w (fire 0 c w)) as Hstep by (constructor; by rewrite Hcl).
      rewrite <- Hcl in Hcov.
      destruct (step_tasks s _ _ tasks Hs Hcov Hstep) as (tasks1 & Hs1 & Hcov1 & Hw1 & _).
      destruct (IH _ tasks1 Hs1 Hcov1) as (w' & Hrun & Hdone & Hn); [lia|].
      exists w'. cbn [run]. rewrite Hcl. split_and!; [done|done|].
      rewrite <- Hw1. by econstructor.
Qed.

(** A listing spawned by the listing of a served directory is the
    listing of one of its sub-directories. *)
Lemma spawned_is_child s e cs r :
  served s (RDir e cs) →
  r ∈ spawned_listings s (list_reply s (entry_path e)) →
  ∃ e' cs', RDir e' cs' ∈ cs ∧ r = list_reply s (entry_path e').
Proof.
  intros Hserved. inversion Hserved as [|e0 cs0 Hd Hl Hcs]; subst e0 cs0.
  unfold spawned_listings, exec. rewrite RequestFileListFinished_world, Hl.
  cbn [snd closures this app]. clear Hl Hserved.
  induction Hcs as [|c cs Hc _ IH]; [by intros ?%elem_of_nil|].
  rewrite !fmap_cons, mjoin_cons, omap_app, elem_of_app. intros [Hr|Hr].
  - unfold item_closures in Hr. rewrite (served_entry_is_dir _ _ Hc) in Hr.
    destruct Hc as [e1 Hd1|e1 cs1 Hd1 Hl1 Hcs1]; cbn in Hr.
    + destruct (IsSupportedMimeType (entry_mime_type e1)); cbn in Hr;
        by apply elem_of_nil in Hr.
    + apply list_elem_of_singleton in Hr as ->.
      exists e1, cs1. split; [left|done].
  - destruct (IH Hr) as (e' & cs' & Hin & ->).
    exists e', cs'. split; [by right|done].
Qed.

Lemma chain_depth s t :
  ∀ e cs n, t = RDir e cs → served s t →
    listing_chain s (list_reply s (entry_path e)) n → (n < depth t)%nat.
Proof.
  induction t as [e0|e0 cs0 IH] using Remote_ind'; intros e cs n Ht Hserved Hchain;
    [done|]. injection Ht as -> ->.
  inversion Hchain as [r|r r' n' Hspawn Hrest]; subst.
  - cbn. lia.
  - destruct (spawned_is_child _ _ _ _ Hserved Hspawn) as (e' & cs' & Hin & ->).
    inversion Hserved as [|e1 cs1 Hd Hl Hcs]; subst e1 cs1.
    rewrite Forall_forall in IH, Hcs.
    pose proof (IH _ Hin e' cs' n' eq_refl (Hcs _ Hin) Hrest) as Hlt.
    assert (depth (RDir e' cs') ≤ max_list (depth <$> cs))%nat as Hle.
    { apply max_list_elem_of_le, list_elem_of_fmap. eauto. }
    cbn [depth] in *. lia.
Qed.

(** C6. Let the remote end serve a finite tree whose root is the
    directory listed by [RequestFileList].  Then however the event loop
    orders the completions, it fires at most [weight] closures and has
    none left exactly after that many; firing them in connection order
    reaches that state; the metadata requests issued by then are the
    directories of the tree, one request each; and a chain of listing
    completions below the root is shorter than the depth of the tree. *)
Theorem C6_traversal_terminates (e : QVariant) (cs : list Remote) (w0 : World) :
  served (this w0) (RDir e cs) →
  closures w0 = [] →
  let t := RDir e cs in
  let w1 := exec (RequestFileList (entry_path e)) w0 in
  (∀ n w, nsteps step n w1 w → (n ≤ weight t)%nat ∧ (closures w = [] ↔ n = weight t))
  ∧ (∃ w, run (weight t) w1 = Some w ∧ closures w = [] ∧ nsteps step (weight t) w1 w)
  ∧ (∀ n w, nsteps step n w1 w → closures w = [] →
       listings (trace w) ≡ₚ listings (trace w0) ++ all_dirs (this w0) t)
  ∧ (∀ n, listing_chain (this w0) (list_reply (this w0) (entry_path e)) n →
       (n < depth t)%nat).
Proof.
  intros Hserved Hnil t w1. set (s := this w0).
  remember (weight t) as total eqn:Htotal.
  assert (this w1 = s) as Hs1 by done.
  assert (Forall2 (covers s) (closures w1) [TaskDir t]) as Hcov1.
  { unfold w1, exec. rewrite RequestFileList_run, Hnil. cbn.
    constructor; [by apply covers_dir|constructor]. }
  assert (listings (trace w1) ++ mjoin (task_dirs s <$> [TaskDir t])
            ≡ₚ listings (trace w0) ++ all_dirs s t) as Hdirs1.
  { unfold w1, exec. rewrite RequestFileList_run. cbn [snd trace].
    rewrite listings_app. cbn. by rewrite app_nil_r, <- (assoc_L (++)). }
  assert (sum_list_with task_weight [TaskDir t] = total) as Hweight
    by (rewrite Htotal; cbn; lia).
  split_and!.
  - intros n w Hn.
    destruct (nsteps_tasks s n w1 w _ Hs1 Hcov1 Hn) as (tasks & _ & Hcov & Hw & _).
    rewrite Hweight in Hw. split; [lia|]. split.
    + intros Hcl. rewrite Hcl in Hcov. apply Forall2_nil_inv_l in Hcov as ->.
      cbn in Hw. lia.
    + intros ->. eapply tasks_done; [done|lia].
  - destruct (run_tasks s total w1 _ Hs1 Hcov1) as (w & Hrun & Hcl & Hn); [lia|].
    rewrite Hweight in Hn. eauto.
  - intros n w Hn Hcl.
    destruct (nsteps_tasks s n w1 w _ Hs1 Hcov1 Hn) as (tasks & _ & Hcov & _ & Hp).
    rewrite Hcl in Hcov. apply Forall2_nil_inv_l in Hcov as ->.
    cbn [fmap list_fmap mjoin list_join] in Hp. rewrite app_nil_r in Hp.
    by rewrite Hp, Hdirs1.
  - intros n Hchain. by eapply chain_depth.
Qed.

(** ** Further properties of the service *)

(** *** Settings and credentials *)

Lemma perform_qsettings op w :
  qsettings (exec (perform op) w) =
    match op with
    | OpAuthenticationFinished a =>
        <[QSettings_key kSettingsGroup "name" := VString (name a)]>
          (<[QSettings_key kSettingsGroup "access_token_secret" :=
               VString (access_token_secret a)]>
             (<[QSettings_key kSettingsGroup "access_token" :=
                  VString (access_token a)]> (qsettings w)))
    | _ => qsettings w
    end.
Proof.
  unfold exec. destruct op; cbn [perform].
  - rewrite Connect_run. by destruct (has_credentials (this w)).
  - by rewrite AuthenticationFinished_run.
  - done.
  - done.
  - by rewrite RequestFileListFinished_world.
  - unfold mbind, M_bind. by rewrite FetchContentUrl_run.
  - by rewrite FetchContentUrlFinished_run.
  - done.
  - unfold mbind, M_bind. by rewrite GetStreamingUrlFromSongId_run.
Qed.

Lemma dispatch_qsettings c w : qsettings (exec (dispatch c) w) = qsettings w.
Proof.
  unfold exec. destruct c; cbn [dispatch].
  - by rewrite RequestFileListFinished_world.
  - by rewrite FetchContentUrlFinished_run.
  - done.
Qed.

(** X1. What [AuthenticationFinished] writes to the settings is what the
    constructor reads: a service constructed afterwards, whatever its
    fields held before, starts with the authenticator's token pair. *)
Theorem X1_persisted_credentials_read_back (a : DropboxAuthenticator) (w : World)
    (s0 : DropboxService) :
  this (exec DropboxService_ctor (with_this (exec (AuthenticationFinished a) w) s0)) =
    mkService (access_token a) (access_token_secret a)
  ∧ (has_credentials
       (this (exec DropboxService_ctor (with_this (exec (AuthenticationFinished a) w) s0)))
     = negb (QString_isEmpty (access_token a))).
Proof.
  assert (this (exec DropboxService_ctor
                  (with_this (exec (AuthenticationFinished a) w) s0)) =
            mkService (access_token a) (access_token_secret a)) as Hs.
  { unfold exec. rewrite ctor_run, AuthenticationFinished_run.
    cbv zeta. cbn [snd this qsettings with_this].
    rewrite lookup_insert_ne by done. rewrite lookup_insert_ne by done.
    rewrite lookup_insert_eq. rewrite lookup_insert_ne by done.
    by rewrite lookup_insert_eq. }
  split; [done|]. by rewrite Hs.
Qed.

(** X2. On a first run, with no token in the settings, the constructor
    leaves the service without credentials, and constructing and then
    connecting only registers the URL handler and asks for the settings
    dialog: nothing is sent and no closure is connected. *)
Theorem X2_first_run_asks_for_settings (w : World) :
  qsettings w !! QSettings_key kSettingsGroup "access_token" = None →
  has_credentials (this (exec DropboxService_ctor w)) = false
  ∧ issued (DropboxService_ctor;; Connect) w =
      [EvRegisterUrlHandler; EvShowSettingsDialog]
  ∧ closures (exec (DropboxService_ctor;; Connect) w) = closures w
  ∧ qsettings (exec (DropboxService_ctor;; Connect) w) = qsettings w.
Proof.
  intros Hnone.
  assert (has_credentials (this (exec DropboxService_ctor w)) = false) as Hc.
  { unfold exec. rewrite ctor_run. cbn [snd this]. by rewrite Hnone. }
  assert (exec (DropboxService_ctor;; Connect) w =
            with_trace (exec DropboxService_ctor w)
              (trace w ++ [EvRegisterUrlHandler; EvShowSettingsDialog])) as Hw.
  { unfold exec in *. unfold mbind, M_bind. rewrite ctor_run in *.
    rewrite Connect_run. cbn [snd this] in *. rewrite Hc. cbn.
    unfold with_trace. cbn. by rewrite <- app_assoc. }
  split_and!; [done| |by rewrite Hw..].
  apply issued_app. by rewrite Hw.
Qed.

(** X4. Only [AuthenticationFinished] writes to the settings: the
    constructor and every other member function leave the store as it
    is, and however many closures the event loop fires, both the store
    and the credential fields stay what they were. *)
Theorem X4_settings_written_only_by_authentication (w : World) :
  qsettings (exec DropboxService_ctor w) = qsettings w
  ∧ (∀ op : Operation,
       (∀ a, op ≠ OpAuthenticationFinished a) →
       qsettings (exec (perform op) w) = qsettings w)
  ∧ (∀ (n : nat) (w' : World),
       nsteps step n w w' → qsettings w' = qsettings w ∧ this w' = this w).
Proof.
  split_and!.
  - unfold exec. by rewrite ctor_run.
  - intros op Hop. rewrite perform_qsettings. destruct op; try done.
    by destruct (Hop authenticator).
  - intros n w' Hn. induction Hn as [w|n w w1 w' Hstep _ IH]; [done|].
    destruct Hstep as [w i c _]. unfold fire in IH.
    by rewrite dispatch_qsettings, dispatch_this in IH.
Qed.

(** X5. The last authentication wins: authenticating with [a2] after
    [a1] leaves the fields and the settings exactly as authenticating
    with [a2] alone; nothing of [a1] remains. *)
Theorem X5_reauthentication_overrides (a1 a2 : DropboxAuthenticator) (w : World) :
  this (exec (AuthenticationFinished a2) (exec (AuthenticationFinished a1) w)) =
    this (exec (AuthenticationFinished a2) w)
  ∧ qsettings (exec (AuthenticationFinished a2) (exec (AuthenticationFinished a1) w)) =
      qsettings (exec (AuthenticationFinished a2) w).
Proof.
  unfold exec. rewrite !AuthenticationFinished_run. cbv zeta.
  cbn [snd this qsettings]. split; [done|].
  apply map_eq. intros k. rewrite !lookup_insert.
  repeat case_decide; congruence.
Qed.

(** *** The shape of requests *)

Lemma item_events_shape s c : Forall (request_shape s) (item_events s c).
Proof.
  unfold item_events. destruct (entry_is_dir c).
  - repeat constructor. cbn. eauto.
  - destruct (IsSupportedMimeType (entry_mime_type c)); repeat constructor.
    cbn. eauto.
Qed.

Lemma items_events_shape s l :
  Forall (request_shape s) (mjoin (item_events s <$> l)).
Proof.
  induction l as [|c l IH]; [constructor|].
  rewrite fmap_cons, mjoin_cons. apply Forall_app. split; [apply item_events_shape|done].
Qed.

Lemma dispatch_added c w :
  Forall (request_shape (this w)) (added w (exec (dispatch c) w)).
Proof.
  unfold added, exec. destruct c; cbn [dispatch].
  - rewrite RequestFileListFinished_world. cbn [snd trace].
    rewrite drop_app_length. constructor; [done|apply items_events_shape].
  - rewrite FetchContentUrlFinished_run. cbv zeta. cbn [snd trace].
    rewrite drop_app_length. by repeat constructor.
  - unfold ReadTagsFinished. run_M. rewrite drop_app_length. by repeat constructor.
Qed.

(** X3. Whatever member function runs, each request it sends is a [GET]
    of the metadata endpoint followed by some path, or a [POST] without
    body to the media endpoint followed by some path, and carries exactly
    one header, [Authorization], signed from the credentials the service
    holds when the function returns.  The requests sent by a slot the
    event loop fires are signed from the credentials held at that moment,
    not from those the parent request was signed with. *)
Theorem X3_requests_have_signed_endpoint_shape (w : World) :
  (∀ op : Operation,
     Forall (request_shape (this (exec (perform op) w))) (issued (perform op) w))
  ∧ (∀ w' : World, step w w' → Forall (request_shape (this w)) (added w w')).
Proof.
  split.
  - intros op. destruct op; cbn [perform].
    + unfold issued, exec. rewrite Connect_run.
      destruct (has_credentials (this w)).
      * rewrite RequestFileList_run. cbn [snd trace this].
        rewrite drop_app_length. repeat constructor. cbn. eauto.
      * cbn. rewrite drop_app_length. by repeat constructor.
    + unfold issued, exec. rewrite AuthenticationFinished_run. cbv zeta.
      cbn [snd trace this]. rewrite drop_app_length. repeat constructor. cbn. eauto.
    + unfold issued, exec. cbn. rewrite drop_all. constructor.
    + unfold issued, exec. rewrite RequestFileList_run. cbn [snd trace this].
      rewrite drop_app_length. repeat constructor. cbn. eauto.
    + change (RequestFileListFinished reply)
        with (dispatch (Slot_RequestFileListFinished reply)).
      rewrite dispatch_this. apply dispatch_added.
    + unfold issued, exec, mbind, M_bind. rewrite FetchContentUrl_run. cbn.
      rewrite drop_app_length. repeat constructor. cbn. eauto.
    + change (FetchContentUrlFinished reply data)
        with (dispatch (Slot_FetchContentUrlFinished reply data)).
      rewrite dispatch_this. apply dispatch_added.
    + change (ReadTagsFinished reply file)
        with (dispatch (Slot_ReadTagsFinished reply file)).
      rewrite dispatch_this. apply dispatch_added.
    + unfold issued, exec, mbind, M_bind. rewrite GetStreamingUrlFromSongId_run.
      cbn. rewrite drop_app_length. repeat constructor. cbn. eauto.
  - intros w' Hstep. destruct Hstep as [w i c _]. unfold fire.
    apply (dispatch_added c (with_closures w (delete i (closures w)))).
Qed.

(** *** Reply objects *)

Lemma omap_delete_Permutation {A B} (f : A → option B) (l : list A) i x :
  l !! i = Some x → omap f l ≡ₚ omap f [x] ++ omap f (delete i l).
Proof.
  intros Hi. rewrite (delete_Permutation l i x Hi) at 1.
  change (x :: delete i l) with ([x] ++ delete i l). by rewrite omap_app.
Qed.

Lemma held_item s c : held (item_closures s c) = created (item_events s c).
Proof.
  unfold item_closures, item_events. destruct (entry_is_dir c); [done|].
  by destruct (IsSupportedMimeType (entry_mime_type c)).
Qed.

Lemma deleted_item s c : deleted (item_events s c) = [].
Proof.
  unfold item_events. destruct (entry_is_dir c); [done|].
  by destruct (IsSupportedMimeType (entry_mime_type c)).
Qed.

Lemma held_items s l :
  held (mjoin (item_closures s <$> l)) = created (mjoin (item_events s <$> l)).
Proof.
  induction l as [|c l IH]; [done|].
  rewrite !fmap_cons, !mjoin_cons. unfold held, created in *.
  rewrite !omap_app. f_equal; [apply held_item|done].
Qed.

Lemma deleted_items s l : deleted (mjoin (item_events s <$> l)) = [].
Proof.
  induction l as [|c l IH]; [done|].
  rewrite fmap_cons, mjoin_cons. unfold deleted in *.
  rewrite omap_app, IH, app_nil_r. apply deleted_item.
Qed.

(** Firing a closure hands out some replies [new]; those and the fired
    closure's own reply move between the three lists without loss. *)
Lemma fire_replies i c w :
  closures w !! i = Some c →
  ∃ new,
    created (trace (fire i c w)) = created (trace w) ++ new
    ∧ deleted (trace (fire i c w)) ++ held (closures (fire i c w))
      ≡ₚ (deleted (trace w) ++ held (closures w)) ++ new.
Proof.
  intros Hi. pose proof (omap_delete_Permutation
    (λ c, match c with
          | Slot_RequestFileListFinished r => Some r
          | Slot_FetchContentUrlFinished r _ => Some r
          | Slot_ReadTagsFinished _ _ => None
          end) _ _ _ Hi) as Hheld.
  fold (held (closures w)) in Hheld. fold (held (delete i (closures w))) in Hheld.
  unfold fire, exec. destruct c as [reply|reply data|reply file]; cbn [dispatch].
  - rewrite RequestFileListFinished_world. cbn [snd this closures trace with_closures].
    exists (created (mjoin (item_events (this w) <$> decoded_contents reply))).
    unfold created, deleted, held in *. rewrite !omap_app. split.
    + done.
    + change (omap ?f (EvDeleteLater (ObjReply reply) :: ?l))
        with ([reply] ++ omap f l).
      fold (deleted (mjoin (item_events (this w) <$> decoded_contents reply))).
      fold (held (mjoin (item_closures (this w) <$> decoded_contents reply))).
      fold (created (mjoin (item_events (this w) <$> decoded_contents reply))).
      rewrite deleted_items, held_items, Hheld, app_nil_r.
      cbn [omap]. by rewrite <- !(assoc_L (++)).
  - rewrite FetchContentUrlFinished_run. cbv zeta.
    cbn [snd this closures trace with_closures].
    exists []. unfold created, deleted, held in *. rewrite !omap_app. split.
    + cbn. by rewrite app_nil_r.
    + rewrite Hheld. cbn. by rewrite !app_nil_r, <- !(assoc_L (++)).
  - unfold ReadTagsFinished. run_M. exists [].
    unfold created, deleted, held in *. rewrite !omap_app. split.
    + cbn. by rewrite app_nil_r.
    + rewrite Hheld. cbn. by rewrite !app_nil_r.
Qed.

(** Replies that are neither deleted nor held stay so while the event
    loop runs. *)
Lemma nsteps_outstanding rest n w w' :
  deleted (trace w) ++ held (closures w) ++ rest ≡ₚ created (trace w) →
  nsteps step n w w' →
  deleted (trace w') ++ held (closures w') ++ rest ≡ₚ created (trace w').
Proof.
  intros Hbal Hn. induction Hn as [w|n w w1 w' Hstep _ IH]; [done|].
  apply IH. destruct Hstep as [w i c Hi].
  destruct (fire_replies i c w Hi) as (new & Hc & Hdh).
  rewrite Hc, <- Hbal, (assoc_L (++)), Hdh, <- !(assoc_L (++)).
  do 2 f_equiv. apply (comm (++)).
Qed.

Lemma RequestFileList_balanced path w :
  balanced w → balanced (exec (RequestFileList path) w).
Proof.
  unfold balanced, exec. intros Hbal. rewrite RequestFileList_run.
  cbn [snd closures trace]. unfold created, deleted, held in *.
  rewrite !omap_app, <- Hbal. cbn. by rewrite app_nil_r, <- !(assoc_L (++)).
Qed.

Lemma deletions_items s l : deletions (mjoin (item_events s <$> l)) = [].
Proof.
  induction l as [|c l IH]; [done|].
  rewrite fmap_cons, mjoin_cons. unfold deletions in *.
  rewrite omap_app, IH, app_nil_r. unfold item_events.
  destruct (entry_is_dir c); [done|].
  by destruct (IsSupportedMimeType (entry_mime_type c)).
Qed.

(** X6. The [QNetworkReply] objects of the listing machinery are neither
    lost nor deleted twice.  If every network reply handed out so far is
    scheduled for deletion or bound to a connected closure, once each,
    this still holds after [RequestFileList], [Connect] and
    [AuthenticationFinished] and after any number of turns of the event
    loop; when no closure is left, the network replies scheduled for
    deletion are exactly those handed out.  A fired slot schedules for
    deletion the network reply bound to it and nothing else; the slot of
    the tag reader, [ReadTagsFinished], schedules nothing, so the tag
    reader's replies are never deleted by the service. *)
Theorem X6_network_replies_deleted_exactly_once (w : World) :
  balanced w →
  (∀ path, balanced (exec (RequestFileList path) w))
  ∧ balanced (exec Connect w)
  ∧ (∀ a, balanced (exec (AuthenticationFinished a) w))
  ∧ (∀ n w', nsteps step n w w' →
       balanced w' ∧ (closures w' = [] → deleted (trace w') ≡ₚ created (trace w')))
  ∧ (∀ i c, closures w !! i = Some c →
       deletions (added w (fire i c w)) =
         match c with
         | Slot_RequestFileListFinished reply => [ObjReply reply]
         | Slot_FetchContentUrlFinished reply _ => [ObjReply reply]
         | Slot_ReadTagsFinished _ _ => []
         end).
Proof.
  intros Hbal. split_and!.
  - intros path. by apply RequestFileList_balanced.
  - unfold exec. rewrite Connect_run. destruct (has_credentials (this w)).
    + by apply RequestFileList_balanced.
    + unfold balanced in *. cbn [snd closures trace with_trace].
      unfold created, deleted in *. rewrite !omap_app. cbn.
      by rewrite !app_nil_r.
  - intros a. unfold balanced, exec in *. rewrite AuthenticationFinished_run.
    cbv zeta. cbn [snd closures trace]. unfold created, deleted, held in *.
    rewrite !omap_app, <- Hbal. cbn. by rewrite app_nil_r, <- !(assoc_L (++)).
  - intros n w' Hn.
    assert (balanced w') as Hbal'.
    { unfold balanced in *.
      pose proof (nsteps_outstanding [] n w w') as Hout.
      rewrite !app_nil_r in Hout. by apply Hout. }
    split; [done|]. intros Hnil. unfold balanced in Hbal'.
    rewrite Hnil in Hbal'. by rewrite app_nil_r in Hbal'.
  - intros i c _. unfold added, fire, exec.
    destruct c as [reply|reply data|reply file]; cbn [dispatch].
    + rewrite RequestFileListFinished_world. cbn [snd trace with_closures this].
      rewrite drop_app_length.
      change (deletions (EvDeleteLater (ObjReply reply) :: ?l))
        with (ObjReply reply :: deletions l).
      by rewrite deletions_items.
    + rewrite FetchContentUrlFinished_run. cbv zeta.
      cbn [snd trace with_closures]. by rewrite drop_app_length.
    + unfold ReadTagsFinished. run_M. by rewrite drop_app_length.
Qed.

(** X7. [GetStreamingUrlFromSongId] is handed a reply that it neither
    schedules for deletion nor binds to a closure, and nothing the event
    loop does afterwards changes that: the reply stays outstanding. *)
Theorem X7_blocking_resolver_reply_never_deleted (url : QUrl) (w : World) :
  let w' := exec (GetStreamingUrlFromSongId url) w in
  let reply := media_reply (this w) (QUrl_path url) in
  created (trace w') = created (trace w) ++ [reply]
  ∧ deleted (trace w') = deleted (trace w)
  ∧ closures w' = closures w
  ∧ (balanced w →
     ∀ n w'', nsteps step n w' w'' →
       deleted (trace w'') ++ held (closures w'') ++ [reply] ≡ₚ created (trace w'')).
Proof.
  intros w' reply.
  assert (w' = with_trace w (trace w ++
            [EvNetwork (POST "") (media_request (this w) (QUrl_path url));
             EvWaitForSignal reply])) as Hw'.
  { unfold w', exec. by rewrite GetStreamingUrlFromSongId_run. }
  assert (created (trace w') = created (trace w) ++ [reply]) as Hc.
  { rewrite Hw'. cbn [trace with_trace]. unfold created. by rewrite omap_app. }
  assert (deleted (trace w') = deleted (trace w)) as Hd.
  { rewrite Hw'. cbn [trace with_trace]. unfold deleted.
    rewrite omap_app. cbn. by rewrite app_nil_r. }
  assert (closures w' = closures w) as Hcl by (by rewrite Hw').
  split_and!; [done..|].
  intros Hbal n w'' Hn. apply (nsteps_outstanding [reply] n w' w''); [|done].
  rewrite Hc, Hd, Hcl, (assoc_L (++)). by rewrite Hbal.
Qed.

(** *** The files a traversal reaches *)

Lemma tag_reads_app tr1 tr2 : tag_reads (tr1 ++ tr2) = tag_reads tr1 ++ tag_reads tr2.
Proof. apply omap_app. Qed.

Lemma children_handled s cs :
  Forall (served s) cs →
  Forall2 (handles s) (mjoin (item_closures s <$> (entry_of <$> cs)))
    (mjoin (child_jobs <$> cs)).
Proof.
  induction 1 as [|c cs Hc _ IH]; [constructor|].
  rewrite !fmap_cons, !mjoin_cons. apply Forall2_app; [|done].
  unfold item_closures. rewrite (served_entry_is_dir _ _ Hc).
  destruct Hc as [e Hd|e cs' Hd Hl Hcs]; cbn.
  - destruct (IsSupportedMimeType (entry_mime_type e)).
    + constructor; [apply handles_fetch|constructor].
    + constructor.
  - constructor; [by apply handles_dir; constructor|constructor].
Qed.

Lemma child_fetches s c :
  served s c →
  fetches (item_events s (entry_of c)) ++ mjoin (job_fetches s <$> child_jobs c)
  = file_fetch s <$> all_files c.
Proof.
  intros Hc. unfold item_events. rewrite (served_entry_is_dir _ _ Hc).
  destruct Hc as [e Hd|e cs' Hd Hl Hcs]; cbn [child_jobs all_files entry_of].
  - by destruct (IsSupportedMimeType (entry_mime_type e)).
  - cbn. by rewrite app_nil_r.
Qed.

Lemma child_tag_reads s c :
  served s c →
  tag_reads (item_events s (entry_of c)) ++ mjoin (job_tag_reads s <$> child_jobs c)
  = file_tag_read s <$> all_files c.
Proof.
  intros Hc. unfold item_events. rewrite (served_entry_is_dir _ _ Hc).
  destruct Hc as [e Hd|e cs' Hd Hl Hcs]; cbn [child_jobs all_files entry_of].
  - by destruct (IsSupportedMimeType (entry_mime_type e)).
  - cbn. by rewrite app_nil_r.
Qed.

Lemma children_fetches s cs :
  Forall (served s) cs →
  fetches (mjoin (item_events s <$> (entry_of <$> cs)))
    ++ mjoin (job_fetches s <$> mjoin (child_jobs <$> cs))
  ≡ₚ file_fetch s <$> mjoin (all_files <$> cs).
Proof.
  induction 1 as [|c cs Hc _ IH]; [done|].
  rewrite !fmap_cons, !mjoin_cons, fetches_app, !fmap_app, join_app.
  by rewrite <- IH, <- (child_fetches s c Hc), app_shuffle.
Qed.

Lemma children_tag_reads s cs :
  Forall (served s) cs →
  tag_reads (mjoin (item_events s <$> (entry_of <$> cs)))
    ++ mjoin (job_tag_reads s <$> mjoin (child_jobs <$> cs))
  ≡ₚ file_tag_read s <$> mjoin (all_files <$> cs).
Proof.
  induction 1 as [|c cs Hc _ IH]; [done|].
  rewrite !fmap_cons, !mjoin_cons, tag_reads_app, !fmap_app, join_app.
  by rewrite <- IH, <- (child_tag_reads s c Hc), app_shuffle.
Qed.

Lemma fetch_issues_tag_read s e w :
  this w = s →
  FetchContentUrlFinished (media_reply s (entry_path e)) (entry_bound e) w =
    (tt, mkWorld (this w) (qsettings w)
           (closures w ++
              [Slot_ReadTagsFinished
                 (match file_tag_read s e with
                  | EvReadCloudFile u f z m h =>
                      mkTagReply u f z m h (tag_reader u f z m h)
                  | _ => mkTagReply QUrl_empty "" 0 "" "" ""
                  end)
                 (QMap_index
                    (toMap (QJson_parse (reply_data (media_reply s (entry_path e)))))
                    "url").1])
           (trace w ++
              [EvDeleteLater (ObjReply (media_reply s (entry_path e)));
               EvLog [LogUrl (toUrl (QMap_value
                        (toMap (QJson_parse (reply_data (media_reply s (entry_path e)))))
                        "url"));
                      LogString (QFileInfo_fileName (entry_path e));
                      LogInt (toInt (QMap_value (toMap e) "bytes"));
                      LogString (entry_mime_type e)];
               file_tag_read s e])).
Proof.
  intros _. rewrite FetchContentUrlFinished_run. cbv zeta.
  unfold file_tag_read, entry_path, entry_mime_type.
  by rewrite !entry_bound_value.
Qed.

(** One turn of the event loop during a traversal: content fetches and
    tag reads already issued, with those the connected closures still
    stand for, stay the same collection. *)
Lemma step_jobs s w w' jobs :
  this w = s →
  Forall2 (handles s) (closures w) jobs →
  step w w' →
  ∃ jobs',
    this w' = s
    ∧ Forall2 (handles s) (closures w') jobs'
    ∧ fetches (trace w') ++ mjoin (job_fetches s <$> jobs')
      ≡ₚ fetches (trace w) ++ mjoin (job_fetches s <$> jobs)
    ∧ tag_reads (trace w') ++ mjoin (job_tag_reads s <$> jobs')
      ≡ₚ tag_reads (trace w) ++ mjoin (job_tag_reads s <$> jobs).
Proof.
  intros Hs Hcov Hstep. destruct Hstep as [w i c Hi].
  destruct (Forall2_lookup_l _ _ _ _ _ Hcov Hi) as (k & Hk & Hck).
  pose proof (Forall2_delete _ _ _ i Hcov) as Hdel.
  pose proof (delete_Permutation _ _ _ Hk) as Hperm.
  unfold fire, exec. destruct Hck as [e cs Hserved|e|reply file]; cbn [dispatch].
  - inversion Hserved as [|e' cs' Hd Hl Hcs]; subst e' cs'.
    rewrite RequestFileListFinished_world. cbn [snd this closures trace with_closures].
    rewrite Hs, Hl.
    exists (delete i jobs ++ mjoin (child_jobs <$> cs)). split_and!.
    + done.
    + apply Forall2_app; [done|]. by apply children_handled.
    + rewrite (fmap_Permutation _ _ _ Hperm), fmap_app, join_app, fmap_cons, mjoin_cons.
      cbn [job_fetches all_files].
      pose proof (children_fetches s cs Hcs) as Hch. rewrite <- Hch.
      change (?x :: ?l) with ([x] ++ l). rewrite !fetches_app.
      change (fetches [EvDeleteLater _]) with (@nil QNetworkRequest). cbn [app].
      rewrite <- !(assoc_L (++)). do 2 f_equiv. apply (comm (++)).
    + rewrite (fmap_Permutation _ _ _ Hperm), fmap_app, join_app, fmap_cons, mjoin_cons.
      cbn [job_tag_reads all_files].
      pose proof (children_tag_reads s cs Hcs) as Hch. rewrite <- Hch.
      change (?x :: ?l) with ([x] ++ l). rewrite !tag_reads_app.
      change (tag_reads [EvDeleteLater _]) with (@nil Event). cbn [app].
      rewrite <- !(assoc_L (++)). do 2 f_equiv. apply (comm (++)).
  - rewrite (fetch_issues_tag_read s e) by done.
    cbn [snd this closures trace with_closures].
    exists (delete i jobs ++ [JobTags]). split_and!.
    + done.
    + apply Forall2_app; [done|]. constructor; [apply handles_tags|constructor].
    + rewrite (fmap_Permutation _ _ _ Hperm), fmap_app, join_app, fmap_cons, mjoin_cons.
      rewrite fetches_app. cbn. by rewrite !app_nil_r.
    + rewrite (fmap_Permutation _ _ _ Hperm), fmap_app, join_app, fmap_cons, mjoin_cons.
      rewrite tag_reads_app. cbn. rewrite !app_nil_r.
      rewrite <- !(assoc_L (++)). by f_equiv.
  - exists (delete i jobs). unfold ReadTagsFinished. run_M. split_and!.
    + done.
    + done.
    + rewrite (fmap_Permutation _ _ _ Hperm), fmap_cons, mjoin_cons.
      rewrite fetches_app. cbn. by rewrite app_nil_r.
    + rewrite (fmap_Permutation _ _ _ Hperm), fmap_cons, mjoin_cons.
      rewrite tag_reads_app. cbn. by rewrite app_nil_r.
Qed.

Lemma nsteps_jobs s n w w' jobs :
  this w = s →
  Forall2 (handles s) (closures w) jobs →
  nsteps step n w w' →
  ∃ jobs',
    Forall2 (handles s) (closures w') jobs'
    ∧ fetches (trace w') ++ mjoin (job_fetches s <$> jobs')
      ≡ₚ fetches (trace w) ++ mjoin (job_fetches s <$> jobs)
    ∧ tag_reads (trace w') ++ mjoin (job_tag_reads s <$> jobs')
      ≡ₚ tag_reads (trace w) ++ mjoin (job_tag_reads s <$> jobs).
Proof.
  intros Hs Hcov Hn. revert jobs Hs Hcov.
  induction Hn as [w|n w w1 w' Hstep _ IH]; intros jobs Hs Hcov.
  - exists jobs. by split_and!.
  - destruct (step_jobs s w w1 jobs Hs Hcov Hstep) as (jobs1 & Hs1 & Hcov1 & Hf1 & Ht1).
    destruct (IH jobs1 Hs1 Hcov1) as (jobs' & Hcov' & Hf' & Ht').
    exists jobs'. split_and!; [done|by rewrite Hf'|by rewrite Ht'].
Qed.

(** X8. When the remote end serves a finite tree, a traversal started by
    [RequestFileList] on its root has, once no closure is left and in
    whatever order the completions came, fetched the content URL of every
    file of the tree with a supported MIME type exactly once and of no
    other file, and has asked the tag reader once for each such file,
    with the URL from that file's content fetch and the file name, size
    and MIME type of its listing entry. *)
Theorem X8_traversal_reaches_supported_files
    (e : QVariant) (cs : list Remote) (w0 : World) :
  served (this w0) (RDir e cs) →
  closures w0 = [] →
  ∀ n w, nsteps step n (exec (RequestFileList (entry_path e)) w0) w →
    closures w = [] →
    fetches (trace w)
      ≡ₚ fetches (trace w0) ++ (file_fetch (this w0) <$> all_files (RDir e cs))
    ∧ tag_reads (trace w)
      ≡ₚ tag_reads (trace w0) ++ (file_tag_read (this w0) <$> all_files (RDir e cs)).
Proof.
  intros Hserved Hnil n w Hn Hdone. set (s := this w0) in *.
  set (w1 := exec (RequestFileList (entry_path e)) w0) in *.
  assert (this w1 = s) as Hs1 by done.
  assert (Forall2 (handles s) (closures w1) [JobDir (RDir e cs)]) as Hcov1.
  { unfold w1, exec. rewrite RequestFileList_run, Hnil. cbn.
    constructor; [by apply handles_dir|constructor]. }
  destruct (nsteps_jobs s n w1 w _ Hs1 Hcov1 Hn) as (jobs & Hcov & Hf & Ht).
  rewrite Hdone in Hcov. apply Forall2_nil_inv_l in Hcov as ->.
  cbn [fmap list_fmap mjoin list_join] in Hf, Ht. rewrite app_nil_r in Hf, Ht.
  assert (trace w1 = trace w0 ++ [EvNetwork GET (list_request s (entry_path e))]) as Htr.
  { unfold w1, exec. by rewrite RequestFileList_run. }
  rewrite Htr, fetches_app in Hf. rewrite Htr, tag_reads_app in Ht.
  cbn in Hf, Ht. rewrite !app_nil_r in Hf, Ht. done.
Qed.

(** *** Listings that list themselves *)

Lemma dispatch_closures c w :
  ∃ new, closures (exec (dispatch c) w) = closures w ++ new.
Proof.
  unfold exec. destruct c; cbn [dispatch].
  - rewrite RequestFileListFinished_world. by eexists.
  - rewrite FetchContentUrlFinished_run. by eexists.
  - exists []. unfold ReadTagsFinished. run_M. by rewrite app_nil_r.
Qed.

Lemma step_keeps_self_listing s p c w w' :
  c ∈ decoded_contents (list_reply s p) →
  entry_is_dir c = true →
  entry_path c = p →
  this w = s →
  Slot_RequestFileListFinished (list_reply s p) ∈ closures w →
  step w w' →
  this w' = s ∧ Slot_RequestFileListFinished (list_reply s p) ∈ closures w'.
Proof.
  intros Hc Hd Hp Hs Hin Hstep. destruct Hstep as [w i c0 Hi].
  split; [unfold fire; by rewrite dispatch_this|].
  rewrite (delete_Permutation _ _ _ Hi) in Hin.
  apply elem_of_cons in Hin as [<-|Hin].
  - unfold fire, exec. cbn [dispatch]. rewrite RequestFileListFinished_world.
    cbn [snd closures this with_closures]. rewrite Hs. apply elem_of_app. right.
    apply list_elem_of_join.
    exists (item_closures s c). split.
    + unfold item_closures. rewrite Hd, Hp. by apply list_elem_of_singleton.
    + by apply list_elem_of_fmap_2.
  - unfold fire.
    destruct (dispatch_closures c0 (with_closures w (delete i (closures w))))
      as (new & ->).
    apply elem_of_app. by left.
Qed.

Lemma nsteps_keep_self_listing s p c n w w' :
  c ∈ decoded_contents (list_reply s p) →
  entry_is_dir c = true →
  entry_path c = p →
  nsteps step n w w' →
  this w = s →
  Slot_RequestFileListFinished (list_reply s p) ∈ closures w →
  this w' = s ∧ Slot_RequestFileListFinished (list_reply s p) ∈ closures w'.
Proof.
  intros Hc Hd Hp Hn. induction Hn as [w|n w w2 w' Hstep _ IH]; [done|].
  intros Hs Hin.
  destruct (step_keeps_self_listing s p c w w2 Hc Hd Hp Hs Hin Hstep) as [Hs2 Hin2].
  by apply IH.
Qed.

(** X9. There is no protection against cycles.  If the listing of a
    path holds a directory entry with that same path, a traversal that
    lists the path never comes to rest: after any number of turns of the
    event loop, in any order, a closure is still connected, and firing
    them in connection order does not finish with any amount of fuel. *)
Theorem X9_self_listing_directory_never_terminates
    (p : string) (c : QVariant) (w0 : World) :
  c ∈ decoded_contents (list_reply (this w0) p) →
  entry_is_dir c = true →
  entry_path c = p →
  let w1 := exec (RequestFileList p) w0 in
  (∀ n w, nsteps step n w1 w → closures w ≠ [])
  ∧ (∀ fuel, run fuel w1 = None).
Proof.
  intros Hc Hd Hp w1.
  assert (this w1 = this w0) as Hs1 by done.
  assert (Slot_RequestFileListFinished (list_reply (this w0) p) ∈ closures w1) as Hin1.
  { unfold w1, exec. rewrite RequestFileList_run. cbn [snd closures].
    apply elem_of_app. right. by apply list_elem_of_singleton. }
  split.
  - intros n w Hn Hnil.
    destruct (nsteps_keep_self_listing _ p c n w1 w Hc Hd Hp Hn Hs1 Hin1) as [_ Hin].
    rewrite Hnil in Hin. by apply elem_of_nil in Hin.
  - intros fuel. revert Hs1 Hin1. generalize w1. clear w1.
    induction fuel as [|fuel IH]; intros w Hs Hin.
    + cbn. destruct (closures w); [by apply elem_of_nil in Hin|done].
    + cbn [run]. destruct (closures w) as [|c0 rest] eqn:Hcl;
        [by apply elem_of_nil in Hin|].
      assert (step w (fire 0 c0 w)) as Hstep by (constructor; by rewrite Hcl).
      rewrite <- Hcl in Hin.
      destruct (step_keeps_self_listing _ p c w _ Hc Hd Hp Hs Hin Hstep) as [Hs' Hin'].
      by apply IH.
Qed.

(** *** Edge cases of the content fetch *)

Lemma lacks_url_empty body :
  lacks_url body → toUrl (QMap_value (toMap (QJson_parse body)) "url") = QUrl_empty.
Proof.
  unfold lacks_url, QMap_value. intros Hno.
  destruct (QJson_parse body) as [| | | | | |m] eqn:Hp; try done.
  cbn. destruct (m !! "url") as [[| | | |u| |]|] eqn:Hu; try done.
  by destruct (Hno m u eq_refl).
Qed.

(** X10. A reply of the media endpoint that holds no ["url"] string is
    not detected.  [FetchContentUrlFinished] still calls the tag reader,
    with the empty URL and the entry's file name, size and MIME type, and
    [GetStreamingUrlFromSongId] returns the empty URL. *)
Theorem X10_media_reply_without_url (w : World) :
  (∀ reply data,
     lacks_url (reply_data reply) →
     tag_reads (issued (FetchContentUrlFinished reply data) w) =
       [EvReadCloudFile QUrl_empty
          (QFileInfo_fileName (toString (QMap_value data "path")))
          (toInt (QMap_value data "bytes"))
          (toString (QMap_value data "mime_type")) ""])
  ∧ (∀ url,
       lacks_url (network (POST "") (media_request (this w) (QUrl_path url))) →
       eval (GetStreamingUrlFromSongId url) w = QUrl_empty).
Proof.
  split.
  - intros reply data Hno. erewrite issued_app; last first.
    { unfold exec. rewrite FetchContentUrlFinished_run. cbn. reflexivity. }
    cbn. by rewrite (lacks_url_empty _ Hno).
  - intros url Hno. unfold eval. rewrite GetStreamingUrlFromSongId_run.
    cbv zeta. cbn [fst reply_data media_reply]. by apply lacks_url_empty.
Qed.

Lemma wrap32_range z : (- 2 ^ 31 ≤ wrap32 z < 2 ^ 31)%Z.
Proof.
  unfold wrap32.
  pose proof (Z.mod_pos_bound (z + 2 ^ 31) (2 ^ 32) ltac:(lia)). lia.
Qed.

Lemma wrap32_congruent z : ∃ k : Z, wrap32 z = (z + k * 2 ^ 32)%Z.
Proof.
  unfold wrap32. exists (- ((z + 2 ^ 31) / 2 ^ 32))%Z.
  pose proof (Z.div_mod (z + 2 ^ 31) (2 ^ 32) ltac:(lia)). lia.
Qed.

Lemma wrap32_id z : wrap32 z = z ↔ (- 2 ^ 31 ≤ z < 2 ^ 31)%Z.
Proof.
  split.
  - intros <-. apply wrap32_range.
  - intros Hz. unfold wrap32. rewrite Z.mod_small by lia. lia.
Qed.

(** X11. The size handed to the tag reader is a C [int].  For an entry
    whose ["bytes"] is the integer [b] it lies in the 32-bit range and
    differs from [b] by a multiple of 2^32; it is [b] itself exactly when
    [b] fits, so a file of 2 GiB or more is announced with a wrong,
    possibly negative, size. *)
Theorem X11_size_truncated_to_32_bits
    (reply : QNetworkReply) (data : QVariantMap) (w : World) (b : Z) :
  QMap_value data "bytes" = VLongLong b →
  ∃ url filename size mime_type,
    tag_reads (issued (FetchContentUrlFinished reply data) w) =
      [EvReadCloudFile url filename size mime_type ""]
    ∧ (- 2 ^ 31 ≤ size < 2 ^ 31)%Z
    ∧ (∃ k : Z, size = (b + k * 2 ^ 32)%Z)
    ∧ (size = b ↔ (- 2 ^ 31 ≤ b < 2 ^ 31)%Z).
Proof.
  intros Hb. do 4 eexists. split.
  - erewrite issued_app; last first.
    { unfold exec. rewrite FetchContentUrlFinished_run. cbn. reflexivity. }
    cbn. reflexivity.
  - rewrite Hb. cbn [toInt]. unfold toInt.
    split; [apply wrap32_range|]. split; [apply wrap32_congruent|apply wrap32_id].
Qed.

Lemma fileName_from_no_slash acc s :
  has_slash s = false → fileName_from acc s = acc.
Proof.
  revert acc. induction s as [|ch r IH]; intros acc Hs; [done|].
  cbn in *. apply orb_false_iff in Hs as [-> Hr]. by apply IH.
Qed.

Lemma fileName_from_slash acc acc' s :
  has_slash s = true → fileName_from acc s = fileName_from acc' s.
Proof.
  induction s as [|ch r IH]; intros Hs; [done|].
  cbn in *. destruct (Ascii.eqb ch "/"); [done|]. by apply IH.
Qed.

Lemma fileName_from_last acc d n :
  has_slash n = false → fileName_from acc (d +:+ "/" +:+ n) = n.
Proof.
  intros Hn. revert acc. induction d as [|ch d IH]; intros acc.
  - change ("" +:+ "/" +:+ n) with (String "/" n). cbn [fileName_from].
    change (Ascii.eqb "/" "/") with true. cbv iota.
    by apply fileName_from_no_slash.
  - change (String ch d +:+ "/" +:+ n) with (String ch (d +:+ "/" +:+ n)).
    cbn [fileName_from]. destruct (Ascii.eqb ch "/"); apply IH.
Qed.

Lemma fileName_has_no_slash s :
  has_slash (fileName_from s s) = false.
Proof.
  induction s as [|ch r IH]; [done|].
  cbn. destruct (Ascii.eqb ch "/") eqn:Hch; [done|].
  destruct (has_slash r) eqn:Hr.
  - by rewrite (fileName_from_slash _ r r Hr).
  - rewrite fileName_from_no_slash by done. cbn. by rewrite Hch, Hr.
Qed.

(** X12. The file name handed to the tag reader is the last component of
    the entry's path: it holds no slash; for a path [dir/name] with a
    slash-free [name] it is [name]; a path without a slash is passed as
    it is. *)
Theorem X12_tag_reader_gets_last_path_component
    (reply : QNetworkReply) (data : QVariantMap) (w : World) :
  ∃ url filename size mime_type,
    tag_reads (issued (FetchContentUrlFinished reply data) w) =
      [EvReadCloudFile url filename size mime_type ""]
    ∧ has_slash filename = false
    ∧ (∀ dir name,
         toString (QMap_value data "path") = dir +:+ "/" +:+ name →
         has_slash name = false → filename = name)
    ∧ (has_slash (toString (QMap_value data "path")) = false →
       filename = toString (QMap_value data "path")).
Proof.
  do 4 eexists. split.
  - erewrite issued_app; last first.
    { unfold exec. rewrite FetchContentUrlFinished_run. cbn. reflexivity. }
    cbn. reflexivity.
  - unfold QFileInfo_fileName. split_and!.
    + apply fileName_has_no_slash.
    + intros dir name -> Hn. by apply fileName_from_last.
    + intros Hp. by apply fileName_from_no_slash.
Qed.

(** *** Listing entries with missing parts *)

(** X14. Entries are never rejected.  One that is not a JSON object is
    skipped without a trace; one without ["is_dir"] is never listed as a
    directory; and a directory entry without ["path"] makes
    [RequestFileListFinished] list the root path [""] again. *)
Theorem X14_incomplete_entries (c : QVariant) (w : World) :
  ((∀ m, c ≠ VMap m) → exec (RequestFileListFinished_item c) w = w)
  ∧ (toMap c !! "is_dir" = None →
     listings (issued (RequestFileListFinished_item c) w) = [])
  ∧ (entry_is_dir c = true → toMap c !! "path" = None →
     RequestFileListFinished_item c w = RequestFileList "" w).
Proof.
  split_and!.
  - intros Hc. assert (toMap c = ∅) as Hm by (destruct c; naive_solver).
    unfold exec. rewrite item_skipped; [done| |].
    + unfold entry_is_dir. by rewrite Hm.
    + unfold entry_mime_type. by rewrite Hm.
  - intros Hnone.
    assert (entry_is_dir c = false) as Hd.
    { unfold entry_is_dir, QMap_value. by rewrite Hnone. }
    erewrite issued_app; last first.
    { unfold exec. rewrite item_run. cbn. reflexivity. }
    unfold item_events. rewrite Hd.
    by destruct (IsSupportedMimeType (entry_mime_type c)).
  - intros Hd Hnone. rewrite item_directory by done.
    unfold entry_path, QMap_value. by rewrite Hnone.
Qed.

(** *** Connecting while a traversal is under way *)

Lemma run_sound fuel w w' :
  run fuel w = Some w' → closures w' = [] ∧ ∃ n, nsteps step n w w'.
Proof.
  revert w. induction fuel as [|fuel IH]; intros w; cbn [run].
  - destruct (closures w) eqn:Hcl; [|done]. intros [= <-]. split; [done|].
    exists 0. constructor.
  - destruct (closures w) as [|c rest] eqn:Hcl.
    + intros [= <-]. split; [done|]. exists 0. constructor.
    + intros Hrun. destruct (IH _ Hrun) as (Hnil & n & Hn). split; [done|].
      exists (S n). econstructor; [|done]. constructor. by rewrite Hcl.
Qed.

(** X13. [Connect] does not look for a traversal already under way.
    Called twice on a service with credentials, against a remote end
    serving a finite tree, it starts two traversals.  However the event
    loop orders the completions it fires at most twice the closures of
    one traversal and has none left exactly after that many; firing them
    in connection order reaches that state; and by then every directory
    of the tree has been listed twice. *)
Theorem X13_connecting_twice_traverses_twice
    (e : QVariant) (cs : list Remote) (w0 : World) :
  served (this w0) (RDir e cs) →
  entry_path e = "" →
  has_credentials (this w0) = true →
  closures w0 = [] →
  let t := RDir e cs in
  let w1 := exec (Connect;; Connect) w0 in
  (∀ n w, nsteps step n w1 w →
     (n ≤ 2 * weight t)%nat ∧ (closures w = [] ↔ n = 2 * weight t))
  ∧ (∃ w, run (2 * weight t) w1 = Some w ∧ closures w = []
          ∧ nsteps step (2 * weight t) w1 w)
  ∧ (∀ n w, nsteps step n w1 w → closures w = [] →
       listings (trace w)
       ≡ₚ listings (trace w0) ++ all_dirs (this w0) t ++ all_dirs (this w0) t).
Proof.
  intros Hserved Hroot Hcred Hnil t w1. set (s := this w0) in *.
  remember (weight t) as total eqn:Htotal.
  assert (w1 =
            mkWorld s (qsettings w0)
              [Slot_RequestFileListFinished (list_reply s (entry_path e));
               Slot_RequestFileListFinished (list_reply s (entry_path e))]
              (trace w0 ++ [EvNetwork GET (list_request s (entry_path e));
                            EvNetwork GET (list_request s (entry_path e))])) as Hw1.
  { unfold w1, exec, mbind, M_bind.
    destruct (Connect_with_credentials w0 Hcred) as [-> _].
    rewrite RequestFileList_run. cbv beta iota.
    match goal with |- context [Connect ?w] =>
      destruct (Connect_with_credentials w Hcred) as [-> _] end.
    rewrite RequestFileList_run.
    cbn [snd this qsettings closures trace]. fold s. rewrite Hnil, Hroot.
    f_equal. by rewrite <- app_assoc. }
  assert (this w1 = s) as Hs1 by (by rewrite Hw1).
  assert (Forall2 (covers s) (closures w1) [TaskDir t; TaskDir t]) as Hcov1.
  { rewrite Hw1. cbn [closures].
    repeat (constructor; [apply covers_dir; exact Hserved|]). constructor. }
  assert (sum_list_with task_weight [TaskDir t; TaskDir t] = 2 * total) as Hweight
    by (rewrite Htotal; cbn; lia).
  split_and!.
  - intros n w Hn.
    destruct (nsteps_tasks s n w1 w _ Hs1 Hcov1 Hn) as (tasks & _ & Hcov & Hw & _).
    rewrite Hweight in Hw. split; [lia|]. split.
    + intros Hcl. rewrite Hcl in Hcov. apply Forall2_nil_inv_l in Hcov as ->.
      cbn in Hw. lia.
    + intros ->. eapply tasks_done; [done|lia].
  - destruct (run_tasks s (2 * total) w1 _ Hs1 Hcov1) as (w & Hrun & Hcl & Hn); [lia|].
    rewrite Hweight in Hn. eauto.
  - intros n w Hn Hdone.
    destruct (nsteps_tasks s n w1 w _ Hs1 Hcov1 Hn) as (tasks & _ & Hcov & _ & Hp).
    rewrite Hdone in Hcov. apply Forall2_nil_inv_l in Hcov as ->.
    cbn [fmap list_fmap mjoin list_join task_dirs] in Hp.
    rewrite app_nil_r in Hp.
    rewrite Hp, Hw1. cbn [trace]. rewrite listings_app. cbn.
    rewrite app_nil_r, <- !(assoc_L (++)). f_equiv.
    cbn [app]. constructor. apply Permutation_middle.
Qed.

End Properties.

(** ** The self-listing remote end *)

Section SelfListing.

#[local] Existing Instance SampleLoop.sample_loop.

Lemma X9_self_listing_directory_never_terminates_witness :
  let w0 := mkWorld (mkService "token" "secret") ∅ [] [] in
  SampleLoop.pathless_dir ∈ decoded_contents (list_reply (this w0) "")
  ∧ entry_is_dir SampleLoop.pathless_dir = true
  ∧ entry_path SampleLoop.pathless_dir = ""
  ∧ (∀ fuel, run fuel (exec (RequestFileList "") w0) = None).
Proof.
  intros w0.
  assert (SampleLoop.pathless_dir ∈ decoded_contents (list_reply (this w0) "")) as Hin.
  { apply list_elem_of_singleton. reflexivity. }
  split; [exact Hin|]. split; [reflexivity|]. split; [reflexivity|].
  exact (proj2 (X9_self_listing_directory_never_terminates ""
                  SampleLoop.pathless_dir w0 Hin eq_refl eq_refl)).
Defined.

End SelfListing.

(** ** The properties on the sample account *)

Import Sample.
#[local] Existing Instance sample.

Lemma sample_tree_served : served connected tree.
Proof.
  unfold tree. apply served_dir; [reflexivity|reflexivity|].
  repeat apply Forall_cons_2; try apply Forall_nil_2.
  - apply served_dir; [reflexivity|reflexivity|].
    apply Forall_cons_2; [|apply Forall_nil_2]. by apply served_file.
  - by apply served_file.
  - by apply served_file.
Defined.

Lemma C1_fetch_iff_supported_mime_witness :
  let c := file_entry "/b.mp3" "audio/mpeg" 100 in
  entry_is_dir c = false
  ∧ (fetches (issued (RequestFileListFinished_item c) fresh) =
       [media_request connected "/b.mp3"]
     ↔ entry_mime_type c = "audio/ogg" ∨ entry_mime_type c = "audio/mpeg")
  ∧ fetches (issued (RequestFileListFinished (list_reply connected "")) fresh) =
      [media_request connected "/b.mp3"].
Proof.
  pose proof (C1_fetch_iff_supported_mime (list_reply connected "") fresh) as [Hall Hitem].
  split; [reflexivity|]. split.
  - exact (proj1 (Hitem (file_entry "/b.mp3" "audio/mpeg" 100) fresh eq_refl)).
  - rewrite Hall. reflexivity.
Defined.

Lemma C2_directory_entry_listed_once_witness :
  let c := VMap (<["mime_type" := VString "audio/mpeg"]> (toMap (dir_entry "/a"))) in
  entry_is_dir c = true
  ∧ entry_mime_type c = "audio/mpeg"
  ∧ issued (RequestFileListFinished_item c) fresh =
      [EvNetwork GET (list_request connected "/a")].
Proof.
  intros c. split; [reflexivity|]. split; [reflexivity|].
  exact (proj1 (proj2 (C2_directory_entry_listed_once c fresh eq_refl))).
Defined.

Lemma C3_undecodable_listing_is_empty_witness :
  let reply := mkReply GET (list_request connected "/nowhere") "<html>" in
  QJson_parse (reply_data reply) = VInvalid
  ∧ issued (RequestFileListFinished reply) fresh = [EvDeleteLater (ObjReply reply)]
  ∧ this (exec (RequestFileListFinished reply) fresh) = connected
  ∧ closures (exec (RequestFileListFinished reply) fresh) = [].
Proof.
  intros reply. split; [reflexivity|].
  refine (proj2 (C3_undecodable_listing_is_empty reply fresh _)).
  intros (m & l & Hm & _). discriminate Hm.
Defined.

Lemma C4_authentication_persists_and_lists_witness :
  let a := mkAuthenticator "tok" "sec" "Alice" in
  let w' := exec (AuthenticationFinished a) fresh in
  access_token a ≠ ""
  ∧ this w' = mkService "tok" "sec"
  ∧ qsettings w' !! "Dropbox/access_token" = Some (VString "tok")
  ∧ qsettings w' !! "Dropbox/access_token_secret" = Some (VString "sec")
  ∧ qsettings w' !! "Dropbox/name" = Some (VString "Alice")
  ∧ issued (AuthenticationFinished a) fresh =
      [EvDeleteLater (ObjAuthenticator a); EvConnected;
       EvNetwork GET (list_request (mkService "tok" "sec") "")]
  ∧ has_credentials (this w') = true.
Proof.
  intros a w'.
  assert (access_token a ≠ "") as Hne by discriminate.
  pose proof (C4_authentication_persists_and_lists a fresh Hne)
    as (Hthis & Htok & Hsec & Hname & _ & Hev & _ & Hcred).
  split; [exact Hne|]. split; [exact Hthis|]. split; [exact Htok|].
  split; [exact Hsec|]. split; [exact Hname|]. split; [exact Hev|exact Hcred].
Defined.

Lemma C5_connect_branches_on_credentials_witness :
  (has_credentials connected = true
   ∧ issued Connect fresh = [EvNetwork GET (list_request connected "")])
  ∧ (has_credentials (mkService "" "secret") = false
     ∧ issued Connect (mkWorld (mkService "" "secret") ∅ [] []) = [EvShowSettingsDialog]).
Proof.
  split.
  - split; [reflexivity|].
    exact (proj2 (proj1 (C5_connect_branches_on_credentials fresh) eq_refl)).
  - split; [reflexivity|].
    exact (proj1 (proj2 (proj2 (C5_connect_branches_on_credentials
             (mkWorld (mkService "" "secret") ∅ [] [])) eq_refl))).
Defined.

Lemma C6_traversal_terminates_witness :
  served connected tree
  ∧ closures fresh = []
  ∧ (∃ w, run 6 (exec (RequestFileList "") fresh) = Some w ∧ closures w = [])
  ∧ (∀ n, listing_chain connected (list_reply connected "") n → (n < 2)%nat).
Proof.
  split; [exact sample_tree_served|]. split; [reflexivity|].
  pose proof (C6_traversal_terminates (dir_entry "")
                [RDir (dir_entry "/a") [RFile (file_entry "/a/d.ogg" "audio/ogg" 7)];
                 RFile (file_entry "/b.mp3" "audio/mpeg" 100);
                 RFile (file_entry "/c.mp4" "video/mp4" 5)]
                fresh sample_tree_served eq_refl) as (_ & Hrun & _ & Hchain).
  split.
  - destruct Hrun as (w & Hw & Hcl & _). exists w. split; [exact Hw|exact Hcl].
  - exact Hchain.
Defined.

(** The same reply of the content fetch, bound to two different listing
    entries, gives two different tag-read requests; the path, size and
    MIME type found in the reply itself are used by neither. *)
Lemma C7_descriptor_counterexample :
  let reply := media_reply connected "/b.mp3" in
  let url := QUrl_fromString "https://dl.example/b.mp3" in
  QJson_parse (reply_data reply) = media_answer
  ∧ tag_reads (issued (FetchContentUrlFinished reply
                 (entry_bound (file_entry "/b.mp3" "audio/mpeg" 100))) fresh) =
      [EvReadCloudFile url "b.mp3" 100 "audio/mpeg" ""]
  ∧ tag_reads (issued (FetchContentUrlFinished reply
                 (entry_bound (file_entry "/a/d.ogg" "audio/ogg" 7))) fresh) =
      [EvReadCloudFile url "d.ogg" 7 "audio/ogg" ""]
  ∧ tag_reads (issued (FetchContentUrlFinished reply
                 (entry_bound (file_entry "/b.mp3" "audio/mpeg" 100))) fresh) ≠
      [EvReadCloudFile url "z.ogg" 7 "audio/ogg" ""].
Proof.
  cbv zeta. split_and!.
  - reflexivity.
  - vm_compute. reflexivity.
  - vm_compute. reflexivity.
  - vm_compute. discriminate.
Qed.

Lemma C8_blocking_resolver_same_request_witness :
  let url := QUrl_setPath (QUrl_setScheme QUrl_empty "dropbox") "/b.mp3" in
  let c := file_entry "/b.mp3" "audio/mpeg" 100 in
  entry_is_dir c = false
  ∧ IsSupportedMimeType (entry_mime_type c) = true
  ∧ entry_path c = QUrl_path url
  ∧ fetches (issued (RequestFileListFinished_item c) fresh) =
      fetches (issued (GetStreamingUrlFromSongId url) fresh)
  ∧ eval (GetStreamingUrlFromSongId url) fresh =
      QUrl_fromString "https://dl.example/b.mp3".
Proof.
  intros url c.
  pose proof (C8_blocking_resolver_same_request url fresh) as (_ & _ & _ & Hsame & Hret).
  split_and!; [reflexivity..| |].
  - exact (Hsame c eq_refl eq_refl eq_refl).
  - rewrite Hret. reflexivity.
Defined.

Lemma C9_credentials_only_replaced_wholesale_witness :
  let w := exec (RequestFileList "") fresh in
  let c := Slot_RequestFileListFinished (list_reply connected "") in
  closures w !! 0%nat = Some c
  ∧ this (fire 0 c w) = connected
  ∧ this (exec (perform (OpAuthenticationFinished (mkAuthenticator "t2" "s2" "Bob"))) w) =
      mkService "t2" "s2".
Proof.
  intros w c.
  pose proof (C9_credentials_only_replaced_wholesale w) as (_ & Hop & Hstep).
  split; [reflexivity|]. split.
  - apply (Hstep (fire 0 c w)). by constructor.
  - exact (Hop (OpAuthenticationFinished (mkAuthenticator "t2" "s2" "Bob"))).
Defined.

Lemma C10_credentials_ignore_secret_witness :
  let w := mkWorld (mkService "token" "") ∅ [] [] in
  access_token_ (this w) ≠ ""
  ∧ access_token_secret_ (this w) = ""
  ∧ has_credentials (this w) = true
  ∧ issued Connect w = [EvNetwork GET (list_request (this w) "")].
Proof.
  intros w.
  assert (access_token_ (this w) ≠ "") as Hne by discriminate.
  pose proof (proj2 (C10_credentials_ignore_secret w) Hne eq_refl) as (Hc & _ & Hev & _).
  split_and!; [exact Hne|reflexivity|exact Hc|exact Hev].
Defined.

(** The listing of the specification's example: one metadata request for
    [/a], one content fetch for [/b.mp3], nothing for the video. *)
Example listing_example :
  issued (RequestFileListFinished (list_reply connected "")) fresh =
    [EvDeleteLater (ObjReply (list_reply connected ""));
     EvNetwork GET (list_request connected "/a");
     EvLog [LogString "Found:"; LogString "/b.mp3"];
     EvNetwork (POST "") (media_request connected "/b.mp3")].
Proof. vm_compute. reflexivity. Qed.

(** The comparison of MIME types is exact: other spellings are skipped. *)
Example mime_type_other_spellings :
  exec (RequestFileListFinished_item (file_entry "/b.mp3" "Audio/MPEG" 100)) fresh = fresh
  ∧ exec (RequestFileListFinished_item (file_entry "/b.mp3" "audio/mpeg; q=1" 100)) fresh = fresh
  ∧ exec (RequestFileListFinished_item (file_entry "/b.mp3" "audio/*" 100)) fresh = fresh.
Proof. split_and!; reflexivity. Qed.

(** The whole traversal of the sample account, closures fired in
    connection order: two metadata requests, two content fetches. *)
Example traversal_example :
  (λ w, (listings (trace w), fetches (trace w), closures w)) <$>
    run 6 (exec (RequestFileList "") fresh) =
  Some ([list_request connected ""; list_request connected "/a"],
        [media_request connected "/b.mp3"; media_request connected "/a/d.ogg"],
        []).
Proof. vm_compute. reflexivity. Qed.

(** ** The further properties on the sample account *)

Lemma X2_first_run_asks_for_settings_witness :
  qsettings fresh !! QSettings_key kSettingsGroup "access_token" = None
  ∧ has_credentials (this (exec DropboxService_ctor fresh)) = false
  ∧ issued (DropboxService_ctor;; Connect) fresh =
      [EvRegisterUrlHandler; EvShowSettingsDialog].
Proof.
  split; [reflexivity|].
  pose proof (X2_first_run_asks_for_settings fresh eq_refl) as (Hc & Hev & _).
  split; [exact Hc|exact Hev].
Defined.

Lemma X3_requests_have_signed_endpoint_shape_witness :
  let w := exec (RequestFileList "") fresh in
  let c := Slot_RequestFileListFinished (list_reply connected "") in
  closures w !! 0%nat = Some c
  ∧ Forall (request_shape connected) (added w (fire 0 c w)).
Proof.
  intros w c. split; [reflexivity|].
  apply (proj2 (X3_requests_have_signed_endpoint_shape w) (fire 0 c w)).
  by constructor.
Defined.

Lemma X4_settings_written_only_by_authentication_witness :
  let w := exec (AuthenticationFinished (mkAuthenticator "tok" "sec" "Alice")) fresh in
  let c := Slot_RequestFileListFinished (list_reply (mkService "tok" "sec") "") in
  closures w !! 0%nat = Some c
  ∧ qsettings (fire 0 c w) = qsettings w
  ∧ qsettings (exec (perform (OpGetStreamingUrlFromSongId QUrl_empty)) w) = qsettings w.
Proof.
  intros w c.
  pose proof (X4_settings_written_only_by_authentication w) as (_ & Hop & Hn).
  split; [reflexivity|]. split.
  - apply (Hn 1%nat (fire 0 c w)). apply nsteps_once. by constructor.
  - apply Hop. discriminate.
Defined.

Lemma X6_network_replies_deleted_exactly_once_witness :
  let w := exec (RequestFileList "") fresh in
  let c := Slot_RequestFileListFinished (list_reply connected "") in
  balanced fresh
  ∧ closures w !! 0%nat = Some c
  ∧ balanced (fire 0 c w)
  ∧ deletions (added w (fire 0 c w)) = [ObjReply (list_reply connected "")].
Proof.
  intros w c.
  assert (balanced fresh) as Hbal by (unfold balanced; reflexivity).
  split; [exact Hbal|]. split; [reflexivity|].
  pose proof (X6_network_replies_deleted_exactly_once fresh Hbal) as (Hlist & _ & _ & _).
  pose proof (X6_network_replies_deleted_exactly_once w (Hlist ""))
    as (_ & _ & _ & Hn & Hdel).
  split.
  - apply (Hn 1%nat (fire 0 c w)). apply nsteps_once. by constructor.
  - exact (Hdel 0%nat c eq_refl).
Defined.

Lemma X7_blocking_resolver_reply_never_deleted_witness :
  let url := QUrl_setPath (QUrl_setScheme QUrl_empty "dropbox") "/b.mp3" in
  let w' := exec (GetStreamingUrlFromSongId url) fresh in
  balanced fresh
  ∧ deleted (trace w') ++ held (closures w') ++ [media_reply connected "/b.mp3"]
    ≡ₚ created (trace w').
Proof.
  intros url w'.
  assert (balanced fresh) as Hbal by (unfold balanced; reflexivity).
  split; [exact Hbal|].
  pose proof (X7_blocking_resolver_reply_never_deleted url fresh) as (_ & _ & _ & Hout).
  apply (Hout Hbal 0%nat w'). constructor.
Defined.

Lemma X8_traversal_reaches_supported_files_witness :
  served connected tree
  ∧ closures fresh = []
  ∧ ∃ n w, nsteps step n (exec (RequestFileList "") fresh) w
      ∧ closures w = []
      ∧ fetches (trace w)
        ≡ₚ [media_request connected "/a/d.ogg"; media_request connected "/b.mp3"].
Proof.
  split; [exact sample_tree_served|]. split; [reflexivity|].
  destruct (run 6 (exec (RequestFileList "") fresh)) as [w|] eqn:Hrun;
    [|vm_compute in Hrun; discriminate Hrun].
  destruct (run_sound _ _ _ Hrun) as (Hnil & n & Hn).
  exists n, w. split; [exact Hn|]. split; [exact Hnil|].
  exact (proj1 (X8_traversal_reaches_supported_files (dir_entry "")
           [RDir (dir_entry "/a") [RFile (file_entry "/a/d.ogg" "audio/ogg" 7)];
            RFile (file_entry "/b.mp3" "audio/mpeg" 100);
            RFile (file_entry "/c.mp4" "video/mp4" 5)]
           fresh sample_tree_served eq_refl n w Hn Hnil)).
Defined.

Lemma X10_media_reply_without_url_witness :
  let reply := mkReply (POST "") (media_request connected "/b.mp3") "<html>" in
  let data := entry_bound (file_entry "/b.mp3" "audio/mpeg" 100) in
  lacks_url (reply_data reply)
  ∧ tag_reads (issued (FetchContentUrlFinished reply data) fresh) =
      [EvReadCloudFile QUrl_empty "b.mp3" 100 "audio/mpeg" ""].
Proof.
  intros reply data.
  assert (lacks_url (reply_data reply)) as Hno.
  { intros m u Hm. discriminate Hm. }
  split; [exact Hno|].
  exact (proj1 (X10_media_reply_without_url fresh) reply data Hno).
Defined.

Lemma X11_size_truncated_to_32_bits_witness :
  let reply := media_reply connected "/big.ogg" in
  let data := entry_bound (file_entry "/big.ogg" "audio/ogg" 3221225472) in
  QMap_value data "bytes" = VLongLong 3221225472
  ∧ ∃ url filename size mime_type,
      tag_reads (issued (FetchContentUrlFinished reply data) fresh) =
        [EvReadCloudFile url filename size mime_type ""]
      ∧ (- 2 ^ 31 ≤ size < 2 ^ 31)%Z
      ∧ (∃ k : Z, size = (3221225472 + k * 2 ^ 32)%Z)
      ∧ (size = 3221225472%Z ↔ (- 2 ^ 31 ≤ 3221225472 < 2 ^ 31)%Z).
Proof.
  intros reply data. split; [reflexivity|].
  exact (X11_size_truncated_to_32_bits reply data fresh 3221225472 eq_refl).
Defined.

Lemma X12_tag_reader_gets_last_path_component_witness :
  let reply := media_reply connected "/music/a.ogg" in
  let data := entry_bound (file_entry "/music/a.ogg" "audio/ogg" 7) in
  toString (QMap_value data "path") = "/music" +:+ "/" +:+ "a.ogg"
  ∧ has_slash "a.ogg" = false
  ∧ ∃ url filename size mime_type,
      tag_reads (issued (FetchContentUrlFinished reply data) fresh) =
        [EvReadCloudFile url filename size mime_type ""]
      ∧ filename = "a.ogg".
Proof.
  intros reply data. split; [reflexivity|]. split; [reflexivity|].
  destruct (X12_tag_reader_gets_last_path_component reply data fresh)
    as (url & filename & size & mime_type & Hev & _ & Hlast & _).
  exists url, filename, size, mime_type. split; [exact Hev|].
  apply (Hlast "/music" "a.ogg"); reflexivity.
Defined.

Lemma X13_connecting_twice_traverses_twice_witness :
  served connected tree
  ∧ entry_path (dir_entry "") = ""
  ∧ has_credentials connected = true
  ∧ closures fresh = []
  ∧ ∃ w, run 12 (exec (Connect;; Connect) fresh) = Some w
      ∧ closures w = []
      ∧ listings (trace w)
        ≡ₚ [list_request connected ""; list_request connected "/a";
            list_request connected ""; list_request connected "/a"].
Proof.
  split; [exact sample_tree_served|]. do 3 (split; [reflexivity|]).
  destruct (X13_connecting_twice_traverses_twice (dir_entry "")
              [RDir (dir_entry "/a") [RFile (file_entry "/a/d.ogg" "audio/ogg" 7)];
               RFile (file_entry "/b.mp3" "audio/mpeg" 100);
               RFile (file_entry "/c.mp4" "video/mp4" 5)]
              fresh sample_tree_served eq_refl eq_refl eq_refl)
    as (_ & (w & Hrun & Hnil & Hn) & Hlist).
  exists w. split; [exact Hrun|]. split; [exact Hnil|].
  exact (Hlist _ w Hn Hnil).
Defined.

Lemma X14_incomplete_entries_witness :
  (∀ m, VString "oops" ≠ VMap m)
  ∧ exec (RequestFileListFinished_item (VString "oops")) fresh = fresh
  ∧ entry_is_dir SampleLoop.pathless_dir = true
  ∧ toMap SampleLoop.pathless_dir !! "path" = None
  ∧ RequestFileListFinished_item SampleLoop.pathless_dir fresh = RequestFileList "" fresh.
Proof.
  assert (∀ m, VString "oops" ≠ VMap m) as Hne by (intros m; discriminate).
  split; [exact Hne|]. split.
  - exact (proj1 (X14_incomplete_entries (VString "oops") fresh) Hne).
  - split; [reflexivity|]. split; [reflexivity|].
    exact (proj2 (proj2 (X14_incomplete_entries SampleLoop.pathless_dir fresh))
             eq_refl eq_refl).
Defined.
